(** * Shallow embedding of the voice-generation-tool core

    Modelled sources:
    - src/src/utils/prompt-parser.ts            (parseVoicePrompt, gender rules)
    - src/unnamed/part_008                       (EmotionCurves)
    - src/src/core/emotion-transition-engine.ts  (EmotionTransitionEngine)
    - src/src/core/conversation-manager.ts       (ConversationManager)
    - src/src/interfaces/ssml.interface.ts       (AudioMixer)
    - src/src/video/format-readers/premiere-reader.ts (SubtitleReader)

    JavaScript numbers are modelled as exact rationals [Q]; the 16-bit
    PCM samples of a Node [Buffer] are modelled as the [Z] values that
    [readInt16LE] returns, one list element per (frame, channel) slot. *)

From Stdlib Require Import ZArith QArith Qround Qabs Qminmax Lia Lqa.
From Stdlib Require Import String Ascii List Bool Sorted Permutation Psatz.
Import ListNotations.
Open Scope string_scope.

(* ------------------------------------------------------------------ *)
(** ** JavaScript string helpers *)

Module JsString.

(** [String.prototype.toLowerCase] on ASCII characters. *)
Definition lower_char (c : ascii) : ascii :=
  let n := nat_of_ascii c in
  if (65 <=? n)%nat && (n <=? 90)%nat then ascii_of_nat (n + 32) else c.

Fixpoint toLowerCase (s : string) : string :=
  match s with
  | EmptyString => EmptyString
  | String c s' => String (lower_char c) (toLowerCase s')
  end.

Fixpoint startsWith (s p : string) : bool :=
  match p, s with
  | EmptyString, _ => true
  | String c p', String d s' => Ascii.eqb c d && startsWith s' p'
  | String _ _, EmptyString => false
  end.

(** [s.includes(p)]. *)
Fixpoint includes (s p : string) : bool :=
  startsWith s p ||
  match s with
  | EmptyString => false
  | String _ s' => includes s' p
  end.

(** [s.indexOf(p)], [None] standing for [-1]. *)
Fixpoint indexOf (s p : string) : option nat :=
  if startsWith s p then Some 0%nat else
  match s with
  | EmptyString => None
  | String _ s' => option_map S (indexOf s' p)
  end.

(** Whitespace of the [\s] class, on ASCII: tab, LF, VT, FF, CR, space. *)
Definition is_ws (c : ascii) : bool :=
  let n := nat_of_ascii c in
  ((9 <=? n)%nat && (n <=? 13)%nat) || (n =? 32)%nat.

(** [s.split(/\s+/)] on a list of characters: every maximal run of
    whitespace separates two chunks; a leading or trailing run yields an
    empty chunk. The boolean tells whether the input starts with
    whitespace. *)
Fixpoint split_ws_chars (l : list ascii) : list (list ascii) * bool :=
  match l with
  | [] => ([[]], false)
  | c :: l' =>
      let (chunks, ws) := split_ws_chars l' in
      if is_ws c then (if ws then (chunks, true) else ([] :: chunks, true))
      else match chunks with
           | h :: t => ((c :: h) :: t, false)
           | [] => ([[c]], false)
           end
  end.

Definition split_ws (s : string) : list string :=
  map string_of_list_ascii (fst (split_ws_chars (list_ascii_of_string s))).

(** [text.split(/\s+/).length]. *)
Definition split_ws_length (s : string) : nat := length (split_ws s).

End JsString.

(* ------------------------------------------------------------------ *)
(** ** src/src/utils/prompt-parser.ts : gender extraction *)

Module PromptParser.
Import JsString.

Inductive Gender := male | female | neutral.

(** Lines 7-11 of [parseVoicePrompt]: four [if]s run in sequence, each
    one overwriting [gender] when its condition holds. *)
Definition parseGender (prompt : string) : Gender :=
  let lowerPrompt := toLowerCase prompt in
  let g := neutral in
  let g := if includes lowerPrompt "male" && negb (includes lowerPrompt "female")
           then male else g in
  let g := if includes lowerPrompt "female" then female else g in
  let g := if includes lowerPrompt "woman" then female else g in
  let g := if includes lowerPrompt "man" && negb (includes lowerPrompt "woman")
           then male else g in
  g.

End PromptParser.

(* ------------------------------------------------------------------ *)
(** ** src/unnamed/part_008 : EmotionCurves *)

Module EmotionCurves.
Open Scope Q_scope.

(** [EmotionCurves.linear]: [Math.max(0, Math.min(1, progress))]. *)
Definition linear (progress : Q) : Q := Qmax 0 (Qmin 1 progress).

(** [EmotionCurves.bezier]. Only the y-coordinates of the two control
    points are read; destructuring a list with fewer than two points makes
    [cp1[1]] or [cp2[1]] throw, modelled as [None]. *)
Definition bezier (progress : Q) (controlPoints : list (Q * Q)) : option Q :=
  match controlPoints with
  | cp1 :: cp2 :: _ =>
      let t := progress in
      let t2 := t * t in
      let t3 := t2 * t in
      let mt := 1 - t in
      let mt2 := mt * mt in
      let mt3 := mt2 * mt in
      Some (mt3 * 0 + 3 * mt2 * t * snd cp1 + 3 * mt * t2 * snd cp2 + t3 * 1)
  | _ => None
  end.

(** Control points [(0,0)] and [(1,1)]. *)
Definition diagonal_points : list (Q * Q) := [(0, 0); (1, 1)].

End EmotionCurves.

(* ------------------------------------------------------------------ *)
(** ** [Array.prototype.sort] with the comparator [(a, b) => a.time - b.time]

    The sort is stable (ES2019), so it is modelled by insertion sort: an
    element goes in front of the first element whose time is not smaller,
    after all elements of equal time that came before it. *)

Module JsSort.
Section ByTime.
Variable A : Type.
Variable time : A -> Q.

Fixpoint insert_by (x : A) (l : list A) : list A :=
  match l with
  | [] => [x]
  | y :: l' => if Qle_bool (time x) (time y) then x :: l else y :: insert_by x l'
  end.

Fixpoint sort_by (l : list A) : list A :=
  match l with
  | [] => []
  | x :: l' => insert_by x (sort_by l')
  end.

End ByTime.
Arguments insert_by {A} time x l.
Arguments sort_by {A} time l.
End JsSort.

(* ------------------------------------------------------------------ *)
(** ** src/src/core/emotion-transition-engine.ts *)

Module EmotionEngine.
Import JsString.
Open Scope Q_scope.

Record EmotionProfile := mkProfile { ep_type : string; ep_intensity : Q }.

Record EmotionTrigger := mkTrigger {
  tr_word : option string;
  tr_time : option Q;
  tr_marker : option string;
  tr_position : option Q }.

Inductive TransitionCurve := linear | ease_in | ease_out | ease_in_out | bezier.

Record EmotionTransition := mkTransition {
  fromEmotion : EmotionProfile;
  toEmotion : EmotionProfile;
  duration : Q;
  curve : TransitionCurve;
  controlPoints : option (list (Q * Q));
  triggers : EmotionTrigger }.

Record EmotionKeyframe := mkKeyframe {
  kf_time : Q;
  kf_emotion : string;
  kf_intensity : Q;
  kf_transition : option EmotionTransition }.

Record EmotionTimeline := mkTimeline {
  keyframes : list EmotionKeyframe;
  tl_duration : Q;
  tl_defaultEmotion : EmotionProfile }.

Record TransitionConfig := mkConfig {
  minimumDuration : Q;
  maximumDuration : Q;
  intensityThreshold : Q }.

(** The constructor's defaults. *)
Definition default_config : TransitionConfig := mkConfig 500 3000 (1#10).

(** A truthy string: defined and non-empty. *)
Definition truthy_string (o : option string) : option string :=
  match o with
  | Some EmptyString | None => None
  | Some w => Some w
  end.

Definition chars_to_ms (i : Q) : Q := i / 15 * 1000.

(** [keyframes.sort((a, b) => a.time - b.time)]. *)
Definition sort_kf : list EmotionKeyframe -> list EmotionKeyframe :=
  JsSort.sort_by kf_time.

(** [estimateAudioDuration]. *)
Definition estimateAudioDuration (text : string) : Q :=
  inject_Z (Z.of_nat (split_ws_length text)) / 180 * 60 * 1000.

(** [validateTransition]. *)
Definition validateTransition (config : TransitionConfig)
  (tr : EmotionTransition) : bool :=
  if Qlt_le_dec (duration tr) (minimumDuration config) then false else
  if Qlt_le_dec (maximumDuration config) (duration tr) then false else
  let intensityDiff :=
    Qabs (ep_intensity (toEmotion tr) - ep_intensity (fromEmotion tr)) in
  if Qlt_le_dec intensityDiff (intensityThreshold config) then false else true.

End EmotionEngine.

(* ------------------------------------------------------------------ *)
(** ** Results of fallible code: a thrown [Error] is [Err message]. *)

Inductive Result (A : Type) := Ok (a : A) | Err (msg : string).
Arguments Ok {A} a.
Arguments Err {A} msg.

Definition bind {A B} (r : Result A) (k : A -> Result B) : Result B :=
  match r with Ok a => k a | Err m => Err m end.

Notation "x <- r ;; k" := (bind r (fun x => k))
  (at level 61, r at next level, right associativity).

(* ------------------------------------------------------------------ *)
(** ** src/src/interfaces/conversation.interface.ts *)

Module Conv.
Open Scope Q_scope.

Record OverlapConfig := mkOverlap {
  ov_enabled : bool;
  ov_targetLineId : option string;
  overlapStart : Q;
  overlapDuration : Q;
  volumeReduction : Q }.

Record DialogueTiming := mkTiming {
  startTime : Q;
  endTime : option Q;
  pauseBefore : option Q;
  pauseAfter : option Q;
  overlap : option OverlapConfig;
  speedModifier : option Q }.

(** [emotion], [audioEffects] and [context] are carried to the voice
    engine only; the modelled code reads the fields below. *)
Record DialogueLine := mkLine {
  line_id : string;
  characterId : string;
  text : string;
  emotionTransitions : option (list EmotionEngine.EmotionTransition);
  timing : DialogueTiming }.

Record ConversationCharacter := mkCharacter {
  char_id : string;
  char_name : string }.

Record ConversationGlobalSettings := mkGlobal {
  pauseBetweenLines : Q;
  crossfadeDuration : Q;
  masterVolume : Q;
  naturalTiming : bool }.

Record ConversationConfig := mkConversation {
  conv_id : string;
  title : string;
  characters : list ConversationCharacter;
  dialogue : list DialogueLine;
  globalSettings : ConversationGlobalSettings }.

Inductive EventType :=
  line_start | line_end | emotion_change | overlap_start | overlap_end
| effect_start | effect_end.

(** [data] is the overlap configuration for overlap events (only
    [volumeReduction] is read back, by the mixer). *)
Record TimelineEvent := mkEvent {
  ev_time : Q;
  ev_type : EventType;
  ev_characterId : string;
  ev_lineId : string;
  ev_overlap : option OverlapConfig }.

(** A value of [characterUsage], a plain object [{}]: a number, or the
    string made by [+] from a member inherited from [Object.prototype] (a
    function, whose text is not modelled) and a number. *)
Inductive UsageValue := UNum (q : Q) | UText.

(** [characterUsage] holds the object's own properties in creation order
    (the order JavaScript gives integer-like keys is not modelled). *)
Record ConversationTimeline := mkConvTimeline {
  conv_totalDuration : Q;
  events : list TimelineEvent;
  characterUsage : list (string * UsageValue) }.

(** Audio buffers: the 16-bit slots of the Node Buffer (see header). *)
Record AudioSegment := mkSegment {
  seg_lineId : string;
  seg_startTime : Q;
  seg_endTime : Q;
  seg_text : string;
  seg_audio : list Z }.

Record AudioTrackResult := mkTrack {
  at_characterId : string;
  at_characterName : string;
  at_audio : list Z;
  at_segments : list AudioSegment;
  at_totalDuration : Q }.

Record MixingOptions := mkMixing {
  enableAutomaticMixing : bool;
  preserveIndividualTracks : bool;
  normalizeAudio_opt : bool;
  compressionLevel : Q;
  spatialAudioEnabled : bool }.

(** JavaScript truthiness of an optional number. *)
Definition truthy (o : option Q) : option Q :=
  match o with
  | Some x => if Qeq_bool x 0 then None else Some x
  | None => None
  end.

(** [x || d] for an optional number. *)
Definition or_default (o : option Q) (d : Q) : Q :=
  match truthy o with Some x => x | None => d end.

End Conv.

(* ------------------------------------------------------------------ *)
(** ** src/src/interfaces/ssml.interface.ts : AudioMixer *)

Module Mixer.
Import Conv.
Open Scope Z_scope.

Definition sampleRate : Q := 44100.
(** bitDepth 16, channels 2: bytesPerSample = 4 bytes, two 16-bit slots. *)
Definition channels : nat := 2.

(** [Math.round]: round half up. *)
Definition js_round (q : Q) : Z := Qfloor (q + (1#2))%Q.

(** [Math.max(-32768, Math.min(32767, v))]. *)
Definition clamp16 (v : Z) : Z := Z.max (-32768) (Z.min 32767 v).

Definition in_range16 (v : Z) : Prop := -32768 <= v <= 32767.

(** [buf.writeInt16LE(v, 2*k)]; the index is always in range where it is
    used. *)
Fixpoint write_slot (buf : list Z) (k : nat) (v : Z) : list Z :=
  match buf, k with
  | [], _ => []
  | _ :: t, O => v :: t
  | h :: t, S k' => h :: write_slot t k' v
  end.

Definition read_slot (buf : list Z) (k : nat) : Z := nth k buf 0.

(** Inner [channel] loop of [mixAudioSegmentIntoBuffer] for frame [i]. *)
Definition mix_frame (seg mix : list Z) (startSample : nat) (i : nat)
  (volume : Q) : list Z :=
  fold_left (fun mix channel =>
      let mixByteIndex := ((startSample + i) * channels + channel)%nat in
      let segmentByteIndex := (i * channels + channel)%nat in
      let mixValue := read_slot mix mixByteIndex in
      let segmentValue := read_slot seg segmentByteIndex in
      let scaledSegmentValue := js_round (inject_Z segmentValue * volume)%Q in
      let mixedValue := clamp16 (mixValue + scaledSegmentValue) in
      write_slot mix mixByteIndex mixedValue)
    (seq 0 channels) mix.

(** [mixAudioSegmentIntoBuffer]. A negative [startSample] makes the first
    [readInt16LE] throw a RangeError. *)
Definition mixAudioSegmentIntoBuffer (seg mix : list Z) (startSample : Z)
  (volume : Q) : Result (list Z) :=
  let segmentSamples := (length seg / channels)%nat in
  let mixBufferSamples := (length mix / channels)%nat in
  if (startSample <? 0) then
    (if (0 <? segmentSamples)%nat then Err "RangeError" else Ok mix)
  else
    let s := Z.to_nat startSample in
    let n := Nat.min segmentSamples (mixBufferSamples - s) in
    Ok (fold_left (fun mix i => mix_frame seg mix s i volume) (seq 0 n) mix).

Definition sample_of_ms (ms : Q) : Z := Qfloor (ms / 1000 * sampleRate)%Q.

Definition overlapVolume (ev : TimelineEvent) : Q :=
  let red := match ev_overlap ev with
             | Some o => or_default (Some (volumeReduction o)) (3#10)%Q
             | None => (3#10)%Q
             end in
  (1 - red)%Q.

(** Volume of one segment in [mixTrackIntoBuffer]. *)
Definition segmentVolume (characterEvents : list TimelineEvent)
  (segment : AudioSegment) : Q :=
  let overlapping := filter (fun ev =>
        Qle_bool (seg_startTime segment) (ev_time ev) &&
        Qle_bool (ev_time ev) (seg_endTime segment) &&
        match ev_type ev with overlap_start => true | _ => false end)
      characterEvents in
  match overlapping with
  | ev :: _ => overlapVolume ev
  | [] => 1%Q
  end.

Fixpoint mix_segments (characterEvents : list TimelineEvent)
  (segs : list AudioSegment) (mix : list Z) : Result (list Z) :=
  match segs with
  | [] => Ok mix
  | segment :: rest =>
      mix' <- mixAudioSegmentIntoBuffer (seg_audio segment) mix
                (sample_of_ms (seg_startTime segment))
                (segmentVolume characterEvents segment) ;;
      mix_segments characterEvents rest mix'
  end.

(** [mixTrackIntoBuffer]. *)
Definition mixTrackIntoBuffer (track : AudioTrackResult)
  (tl : ConversationTimeline) (mix : list Z) : Result (list Z) :=
  let characterEvents :=
    filter (fun ev => String.eqb (ev_characterId ev) (at_characterId track))
           (events tl) in
  mix_segments characterEvents (at_segments track) mix.

(** Number of whole stereo frames ([totalSamples]) of a buffer. *)
Definition frames (buf : list Z) : nat := (length buf / channels)%nat.

(** The slots visited by the [i]/[channel] loops: those of whole frames. *)
Definition visited (buf : list Z) : list Z := firstn (frames buf * channels) buf.

(** [Buffer.alloc(buffer.length)] filled by [f] on the visited slots; the
    remaining slots (a trailing partial frame) stay 0. *)
Definition map_visited (f : Z -> Z) (buf : list Z) : list Z :=
  map f (visited buf) ++ repeat 0 (length buf - frames buf * channels).

(** Peak loop of [normalizeAudio]. *)
Definition peak (buf : list Z) : Z :=
  fold_left (fun p s => Z.max p (Z.abs s)) (visited buf) 0.

(** [32767 * 0.95]. *)
Definition maxValue : Q := (32767 * (95 # 100))%Q.

Definition normalizationFactor (p : Z) : Q := (maxValue / inject_Z p)%Q.

(** [normalizeAudio]. *)
Definition normalizeAudio (buf : list Z) : list Z :=
  let p := peak buf in
  if p =? 0 then buf
  else map_visited
         (fun sample => clamp16 (js_round (inject_Z sample * normalizationFactor p)%Q))
         buf.

(** Per-sample body of [applyCompression]. *)
Definition compressSample (compressionLevel : Q) (sample : Z) : Z :=
  let threshold := (32767 * (1 - compressionLevel))%Q in
  let ratio := (1 + compressionLevel * 3)%Q in
  let absSample := inject_Z (Z.abs sample) in
  let compressedSample :=
    if Qlt_le_dec threshold absSample then
      let overage := (absSample - threshold)%Q in
      let compressedOverage := (overage / ratio)%Q in
      let sign := (if 0 <=? sample then 1 else -1)%Q in
      (sign * (threshold + compressedOverage))%Q
    else inject_Z sample in
  clamp16 (js_round compressedSample).

(** [applyCompression]. *)
Definition applyCompression (buf : list Z) (compressionLevel : Q) : list Z :=
  map_visited (compressSample compressionLevel) buf.

(** [applySpatialAudio] with stereo output: a copy of the buffer. *)
Definition applySpatialAudio (buf : list Z) : list Z := buf.

Fixpoint mix_tracks (tracks : list AudioTrackResult) (tl : ConversationTimeline)
  (mix : list Z) : Result (list Z) :=
  match tracks with
  | [] => Ok mix
  | track :: rest =>
      mix' <- mixTrackIntoBuffer track tl mix ;;
      mix_tracks rest tl mix'
  end.

(** [mixConversation]. *)
Definition mixConversation (tracks : list AudioTrackResult)
  (tl : ConversationTimeline) (options : MixingOptions) : Result (list Z) :=
  match tracks with
  | [] => Err "No audio tracks to mix"
  | _ =>
    let totalSamples := Qceiling (conv_totalDuration tl / 1000 * sampleRate)%Q in
    if totalSamples <? 0 then Err "RangeError" else
    let mixBuffer := repeat 0 (Z.to_nat totalSamples * channels) in
    mixed <- mix_tracks tracks tl mixBuffer ;;
    let b1 := if normalizeAudio_opt options then normalizeAudio mixed else mixed in
    let b2 := if Qlt_le_dec 0 (compressionLevel options)
              then applyCompression b1 (compressionLevel options) else b1 in
    let b3 := if spatialAudioEnabled options then applySpatialAudio b2 else b2 in
    Ok b3
  end.

End Mixer.

(* ------------------------------------------------------------------ *)
(** ** src/src/core/conversation-manager.ts : ConversationManager *)

Module Manager.
Import JsString Conv.
Open Scope Q_scope.

(** [validateConversationConfig]. *)
Definition validateConversationConfig (config : ConversationConfig)
  : Result unit :=
  match characters config with
  | [] => Err "Conversation must have at least one character"
  | _ =>
  match dialogue config with
  | [] => Err "Conversation must have at least one dialogue line"
  | _ =>
    let characterIds := map char_id (characters config) in
    match find (fun l => negb (existsb (String.eqb (characterId l)) characterIds))
               (dialogue config) with
    | Some l => Err ("Dialogue line references unknown character: " ++ characterId l)
    | None =>
      let lineIds := map line_id (dialogue config) in
      let bad_target l :=
        match overlap (timing l) with
        | Some o =>
            match ov_targetLineId o with
            | Some EmptyString | None => None
            | Some t => if existsb (String.eqb t) lineIds then None else Some t
            end
        | None => None
        end in
      match find (fun l => match bad_target l with Some _ => true | None => false end)
                 (dialogue config) with
      | Some l =>
          match bad_target l with
          | Some t => Err ("Overlap target line not found: " ++ t)
          | None => Ok tt
          end
      | None => Ok tt
      end
    end
  end
  end.

Definition with_timing (l : DialogueLine) (t : DialogueTiming) : DialogueLine :=
  mkLine (line_id l) (characterId l) (text l) (emotionTransitions l) t.

(** One iteration of the loop of [processDialogueTiming] on line number
    [i]. [before] are the lines already processed, [after] the lines not
    yet reached: together with the current line they are the array
    [processed] that [find] searches. Returns the updated line and the new
    [currentTime]. *)
Definition timing_step (g : ConversationGlobalSettings) (i : nat)
  (before after : list DialogueLine) (line : DialogueLine) (currentTime : Q)
  : DialogueLine * Q :=
  let t := timing line in
  let wordCount := split_ws_length (text line) in
  let estimatedDuration := inject_Z (Z.of_nat wordCount) / 3 * 1000 in
  let pb := match pauseBefore t with
            | Some p => p
            | None => if Nat.eqb i 0 then 0 else pauseBetweenLines g
            end in
  let start := currentTime + pb in
  let endT := match truthy (speedModifier t) with
              | Some s => start + estimatedDuration / s
              | None => start + estimatedDuration
              end in
  let line1 := with_timing line
      (mkTiming start (Some endT) (Some pb) (pauseAfter t) (overlap t)
                (speedModifier t)) in
  let start' :=
    match overlap t with
    | Some o =>
        match ov_enabled o, ov_targetLineId o with
        | true, Some id =>
            if String.eqb id "" then start else
            match find (fun l => String.eqb (line_id l) id)
                       (before ++ line1 :: after) with
            | Some target =>
                match truthy (endTime (timing target)) with
                | Some _ => startTime (timing target) + overlapStart o
                | None => start
                end
            | None => start
            end
        | _, _ => start
        end
    | None => start
    end in
  let line2 := with_timing line
      (mkTiming start' (Some endT) (Some pb) (pauseAfter t) (overlap t)
                (speedModifier t)) in
  (line2, endT + or_default (pauseAfter t) 0).

Fixpoint timing_loop (g : ConversationGlobalSettings) (i : nat)
  (before : list DialogueLine) (after : list DialogueLine) (currentTime : Q)
  : list DialogueLine :=
  match after with
  | [] => before
  | line :: rest =>
      let (line', currentTime') := timing_step g i before rest line currentTime in
      timing_loop g (S i) (before ++ [line']) rest currentTime'
  end.

(** [processDialogueTiming]. *)
Definition processDialogueTiming (dialogue : list DialogueLine)
  (g : ConversationGlobalSettings) : list DialogueLine :=
  timing_loop g 0 [] dialogue 0.

(** [line.timing.endTime || line.timing.startTime + 3000]. *)
Definition endTime_or_default (l : DialogueLine) : Q :=
  or_default (endTime (timing l)) (startTime (timing l) + 3000).

(** The members of [Object.prototype], read through a plain object that
    has no own property of that name: all are functions except
    [__proto__], an accessor whose getter returns [Object.prototype]. *)
Definition object_prototype_names : list string :=
  ["constructor"; "__defineGetter__"; "__defineSetter__"; "hasOwnProperty";
   "__lookupGetter__"; "__lookupSetter__"; "isPrototypeOf";
   "propertyIsEnumerable"; "toString"; "valueOf"; "__proto__"; "toLocaleString"].

(** The own property [id] of the object. *)
Fixpoint own_usage (u : list (string * UsageValue)) (id : string) : option UsageValue :=
  match u with
  | [] => None
  | (k, v) :: u' => if String.eqb k id then Some v else own_usage u' id
  end.

(** [(characterUsage[id] || 0) + duration]: a number plus a number; a
    non-empty string, or an inherited function or object (all truthy),
    plus a number is a string. *)
Definition usage_plus (u : list (string * UsageValue)) (id : string) (d : Q) : UsageValue :=
  match own_usage u id with
  | Some (UNum q) => UNum (or_default (Some q) 0 + d)
  | Some UText => UText
  | None => if existsb (String.eqb id) object_prototype_names then UText else UNum (0 + d)
  end.

(** Writing an own data property: replaced in place, or added last. *)
Fixpoint set_own (u : list (string * UsageValue)) (id : string) (v : UsageValue)
  : list (string * UsageValue) :=
  match u with
  | [] => [(id, v)]
  | (k, w) :: u' => if String.eqb k id then (k, v) :: u' else (k, w) :: set_own u' id v
  end.

(** [characterUsage[id] = (characterUsage[id] || 0) + duration]. Assigning
    to [__proto__] calls the inherited setter, which ignores a string. *)
Definition add_usage (u : list (string * UsageValue)) (id : string) (d : Q)
  : list (string * UsageValue) :=
  if String.eqb id "__proto__" then u else set_own u id (usage_plus u id d).

(** Events pushed for one line, in push order. *)
Definition line_events (line : DialogueLine) : list TimelineEvent :=
  let t := timing line in
  let endT := endTime_or_default line in
  [mkEvent (startTime t) line_start (characterId line) (line_id line) None;
   mkEvent endT line_end (characterId line) (line_id line) None]
  ++ match emotionTransitions line with
     | Some trs =>
         map (fun tr => mkEvent
                (startTime t + or_default
                   (EmotionEngine.tr_time (EmotionEngine.triggers tr)) 0)
                emotion_change (characterId line) (line_id line) None) trs
     | None => []
     end
  ++ match overlap t with
     | Some o =>
         if ov_enabled o then
           [mkEvent (startTime t) overlap_start (characterId line) (line_id line) (Some o);
            mkEvent (startTime t + overlapDuration o) overlap_end
                    (characterId line) (line_id line) None]
         else []
     | None => []
     end.

(** [events.sort((a, b) => a.time - b.time)]. *)
Definition sort_events : list TimelineEvent -> list TimelineEvent :=
  JsSort.sort_by ev_time.

(** [createConversationTimeline] (the audio tracks argument is unused). *)
Definition createConversationTimeline (dialogue : list DialogueLine)
  : ConversationTimeline :=
  let '(total, usage) :=
    fold_left (fun acc line =>
        let '(total, usage) := acc in
        let endT := endTime_or_default line in
        (Qmax total endT,
         add_usage usage (characterId line) (endT - startTime (timing line))))
      dialogue (0, []) in
  mkConvTimeline total (sort_events (flat_map line_events dialogue)) usage.

Record ConversationResult := mkConvResult {
  audioTracks : list AudioTrackResult;
  mixedAudio : option (list Z);
  conv_timeline : ConversationTimeline }.

Record ConversationGenerationRequest := mkRequest {
  config : ConversationConfig;
  mixingOptions : option MixingOptions }.

Section Generation.

(** [this.characterManager.initializeCharacters(config.characters)]: the
    [CharacterManager] class is not part of the repository; [Err] is a
    rejection of the awaited call. *)
Variable initializeCharacters : list ConversationCharacter -> Result unit.

(** [this.voiceEngine.generateVoice] for one line of one character: the
    PCM a provider returns (a remote text-to-speech call), or [Err] for a
    rejection. *)
Variable generateVoice : ConversationCharacter -> DialogueLine -> Result (list Z).

(** The inner loop of [generateCharacterAudioTracks] over the lines of
    one character; a rejected call ends it. *)
Fixpoint line_segments (character : ConversationCharacter) (lines : list DialogueLine)
  : Result (list AudioSegment) :=
  match lines with
  | [] => Ok []
  | line :: rest =>
      audioBuffer <- generateVoice character line ;;
      segments <- line_segments character rest ;;
      Ok (mkSegment (line_id line) (startTime (timing line))
                    (endTime_or_default line) (text line) audioBuffer :: segments)
  end.

(** [generateCharacterAudioTracks]: the loop over the characters. *)
Fixpoint generateCharacterAudioTracks (dialogue : list DialogueLine)
  (characters : list ConversationCharacter) : Result (list AudioTrackResult) :=
  match characters with
  | [] => Ok []
  | character :: rest =>
      let lines := filter (fun l => String.eqb (characterId l) (char_id character))
                          dialogue in
      match lines with
      | [] => generateCharacterAudioTracks dialogue rest
      | _ =>
        segments <- line_segments character lines ;;
        tracks <- generateCharacterAudioTracks dialogue rest ;;
        Ok (mkTrack (char_id character) (char_name character)
                    (flat_map seg_audio segments) segments
                    (fold_left (fun sum seg => Qmax sum (seg_endTime seg)) segments 0)
            :: tracks)
      end
  end.

(** [generateConversation] (statistics and metadata are not modelled). *)
Definition generateConversation (request : ConversationGenerationRequest)
  : Result ConversationResult :=
  let cfg := config request in
  _ <- validateConversationConfig cfg ;;
  _ <- initializeCharacters (characters cfg) ;;
  let processed := processDialogueTiming (dialogue cfg) (globalSettings cfg) in
  tracks <- generateCharacterAudioTracks processed (characters cfg) ;;
  let tl := createConversationTimeline processed in
  match mixingOptions request with
  | Some opts =>
      if enableAutomaticMixing opts then
        mixed <- Mixer.mixConversation tracks tl opts ;;
        Ok (mkConvResult tracks (Some mixed) tl)
      else Ok (mkConvResult tracks None tl)
  | None => Ok (mkConvResult tracks None tl)
  end.

End Generation.

(** The timing rule as the spec words it, for lines without explicit
    pause, speed modifier or overlap: [start = cursor + pause_before]
    (0 for the first line, [pauseBetweenLines] after), [end = start +
    word_count / 3 * 1000], cursor moved to [end + pause_after]. *)
Fixpoint claimed_schedule (g : ConversationGlobalSettings) (first : bool)
  (cursor : Q) (lines : list DialogueLine) : list (Q * Q) :=
  match lines with
  | [] => []
  | l :: ls =>
      let pb := if first then 0 else pauseBetweenLines g in
      let s := cursor + pb in
      let e := s + inject_Z (Z.of_nat (split_ws_length (text l))) / 3 * 1000 in
      (s, e) :: claimed_schedule g false (e + or_default (pauseAfter (timing l)) 0) ls
  end.

Definition plain_timing (l : DialogueLine) : Prop :=
  pauseBefore (timing l) = None /\ speedModifier (timing l) = None /\
  overlap (timing l) = None.

Definition line_times (l : DialogueLine) : Q * option Q :=
  (startTime (timing l), endTime (timing l)).

(** The event order the spec states: by time, then
    line_start < overlap_start < emotion_change < overlap_end < line_end. *)
Definition claimed_priority (t : EventType) : nat :=
  match t with
  | line_start => 0 | overlap_start => 1 | emotion_change => 2
  | overlap_end => 3 | line_end => 4 | effect_start => 5 | effect_end => 6
  end.

Fixpoint claimed_sorted (l : list TimelineEvent) : bool :=
  match l with
  | a :: (b :: _) as rest =>
      ((if Qlt_le_dec (ev_time a) (ev_time b) then true else false) ||
       (Qeq_bool (ev_time a) (ev_time b) &&
        Nat.leb (claimed_priority (ev_type a)) (claimed_priority (ev_type b))))
      && claimed_sorted rest
  | _ => true
  end.

End Manager.

(* ------------------------------------------------------------------ *)
(** ** src/src/video/format-readers/premiere-reader.ts : SubtitleReader *)

Module Subtitle.
Import JsString.
Open Scope Q_scope.
Open Scope list_scope.

Definition chars := list ascii.

Definition nl : ascii := ascii_of_nat 10.

Definition is_digit (c : ascii) : bool :=
  let n := nat_of_ascii c in (48 <=? n)%nat && (n <=? 57)%nat.

Definition is_upper (c : ascii) : bool :=
  let n := nat_of_ascii c in (65 <=? n)%nat && (n <=? 90)%nat.

(** [[a-z]] under the [i] flag. *)
Definition is_letter_ci (c : ascii) : bool :=
  let n := nat_of_ascii c in
  ((65 <=? n)%nat && (n <=? 90)%nat) || ((97 <=? n)%nat && (n <=? 122)%nat).

Fixpoint take_while (p : ascii -> bool) (l : chars) : chars :=
  match l with
  | c :: l' => if p c then c :: take_while p l' else []
  | [] => []
  end.

Fixpoint drop_while (p : ascii -> bool) (l : chars) : chars :=
  match l with
  | c :: l' => if p c then drop_while p l' else l
  | [] => []
  end.

(** [String.prototype.trim]. *)
Definition trim (l : chars) : chars :=
  rev (drop_while is_ws (rev (drop_while is_ws l))).

(** Index of the last line feed of a list. *)
Fixpoint last_nl (l : chars) : option nat :=
  match l with
  | [] => None
  | c :: l' =>
      match last_nl l' with
      | Some k => Some (S k)
      | None => if Ascii.eqb c nl then Some 0%nat else None
      end
  end.

(** [content.split(/\n\s*\n/)]: at a line feed, the greedy [\s*] and
    backtracking make the separator run up to the last line feed of the
    whitespace that follows. [cur] is the current chunk, reversed. *)
Fixpoint split_blocks_aux (fuel : nat) (l cur : chars) : list chars :=
  match fuel with
  | O => [app (rev cur) l]
  | S fuel' =>
    match l with
    | [] => [rev cur]
    | c :: l' =>
        if Ascii.eqb c nl then
          match last_nl (take_while is_ws l') with
          | Some k => rev cur :: split_blocks_aux fuel' (skipn (S k) l') []
          | None => split_blocks_aux fuel' l' (c :: cur)
          end
        else split_blocks_aux fuel' l' (c :: cur)
    end
  end.

Definition split_blocks (l : chars) : list chars :=
  split_blocks_aux (S (length l)) l [].

(** [s.split(sep)] for a one-character separator. *)
Fixpoint split_char (sep : ascii) (l : chars) : list chars :=
  match l with
  | [] => [[]]
  | c :: l' =>
      let r := split_char sep l' in
      if Ascii.eqb c sep then [] :: r
      else match r with
           | h :: t => (c :: h) :: t
           | [] => [[c]]
           end
  end.

Fixpoint join (sep : ascii) (ls : list chars) : chars :=
  match ls with
  | [] => []
  | [x] => x
  | x :: ls' => app x (sep :: join sep ls')
  end.

Definition digit_value (c : ascii) : Z := Z.of_nat (nat_of_ascii c - 48).

Definition digits_value (ds : chars) : Z :=
  fold_left (fun acc d => acc * 10 + digit_value d)%Z ds 0%Z.

(** [parseInt(s, 10)]: leading whitespace, an optional sign, the longest
    run of digits; [None] is [NaN]. *)
Definition parseInt (l : chars) : option Z :=
  let l := drop_while is_ws l in
  let '(sign, l) :=
    match l with
    | c :: l' => if Ascii.eqb c "-"%char then ((-1)%Z, l')
                 else if Ascii.eqb c "+"%char then (1%Z, l') else (1%Z, l)
    | [] => (1%Z, l)
    end in
  match take_while is_digit l with
  | [] => None
  | ds => Some (sign * digits_value ds)%Z
  end.

(** Exactly [n] digits at the head of [l]: their value and the rest. *)
Fixpoint digits_n (n : nat) (l : chars) : option (chars * chars) :=
  match n with
  | O => Some ([], l)
  | S n' =>
      match l with
      | c :: l' => if is_digit c then
                     match digits_n n' l' with
                     | Some (ds, r) => Some (c :: ds, r)
                     | None => None
                     end
                   else None
      | [] => None
      end
  end.

Definition expect (c : ascii) (l : chars) : option chars :=
  match l with
  | d :: l' => if Ascii.eqb c d then Some l' else None
  | [] => None
  end.

(** [(\d{2}):(\d{2}):(\d{2}),(\d{3})] at the head of [l]. *)
Definition match_stamp (l : chars) : option ((Z * Z * Z * Z) * chars) :=
  match digits_n 2 l with None => None | Some (h, l) =>
  match expect ":"%char l with None => None | Some l =>
  match digits_n 2 l with None => None | Some (m, l) =>
  match expect ":"%char l with None => None | Some l =>
  match digits_n 2 l with None => None | Some (s, l) =>
  match expect ","%char l with None => None | Some l =>
  match digits_n 3 l with None => None | Some (ms, l) =>
  Some ((digits_value h, digits_value m, digits_value s, digits_value ms), l)
  end end end end end end end.

(** The SRT time regex anchored at the head of [l]. *)
Definition match_time_at (l : chars) : option ((Z * Z * Z * Z) * (Z * Z * Z * Z)) :=
  match match_stamp l with None => None | Some (a, l) =>
  let l := drop_while is_ws l in
  match expect "-"%char l with None => None | Some l =>
  match expect "-"%char l with None => None | Some l =>
  match expect ">"%char l with None => None | Some l =>
  let l := drop_while is_ws l in
  match match_stamp l with None => None | Some (b, _) => Some (a, b)
  end end end end end.

(** [timeLine.match(...)]: the first position where the regex matches. *)
Fixpoint match_time (l : chars) : option ((Z * Z * Z * Z) * (Z * Z * Z * Z)) :=
  match match_time_at l with
  | Some r => Some r
  | None => match l with [] => None | _ :: l' => match_time l' end
  end.

(** [parseTimeToSeconds]. *)
Definition parseTimeToSeconds (t : Z * Z * Z * Z) : Q :=
  let '(h, m, s, ms) := t in
  inject_Z h * 3600 + inject_Z m * 60 + inject_Z s + inject_Z ms / 1000.

(** Decimal digits of a non-negative integer ([Number.prototype.toString]). *)
Fixpoint dec_digits (fuel : nat) (n : Z) (acc : chars) : chars :=
  match fuel with
  | O => acc
  | S f =>
      let acc' := ascii_of_nat (48 + Z.to_nat (n mod 10)) :: acc in
      if (n / 10 =? 0)%Z then acc' else dec_digits f (n / 10) acc'
  end.

Definition z_to_dec (z : Z) : chars :=
  if (z <? 0)%Z
  then "-"%char :: dec_digits (S (Z.to_nat (Z.log2 (- z)))) (- z) []
  else dec_digits (S (Z.to_nat (Z.log2 z))) z [].

(** [s.padStart(2, '0')]. *)
Definition padStart2 (l : chars) : chars :=
  match l with
  | [] => ["0"%char; "0"%char]
  | [c] => ["0"%char; c]
  | _ => l
  end.

(** JavaScript [%] on numbers: the remainder of the truncated quotient. *)
Definition js_trunc (q : Q) : Z := if Qle_bool 0 q then Qfloor q else Qceiling q.
Definition js_mod (x m : Q) : Q := x - m * inject_Z (js_trunc (x / m)).

(** [secondsToTimecode]. *)
Definition secondsToTimecode (seconds : Q) : chars :=
  let hours := Qfloor (seconds / 3600) in
  let minutes := Qfloor (js_mod seconds 3600 / 60) in
  let secs := Qfloor (js_mod seconds 60) in
  let frames := Qfloor (js_mod seconds 1 * 25) in
  padStart2 (z_to_dec hours) ++ [":"%char] ++ padStart2 (z_to_dec minutes)
  ++ [":"%char] ++ padStart2 (z_to_dec secs) ++ [":"%char]
  ++ padStart2 (z_to_dec frames).

(** Splits at the first occurrence of [c]. *)
Fixpoint break_at (c : ascii) (l : chars) : option (chars * chars) :=
  match l with
  | [] => None
  | d :: l' =>
      if Ascii.eqb c d then Some ([], l')
      else match break_at c l' with
           | Some (b, a) => Some (d :: b, a)
           | None => None
           end
  end.

(** [text.match(/^([A-Z][^:]*?):\s*(.+)/s)]: the lazy group stops at the
    first colon; [(.+)] takes everything after the whitespace, or, when
    only whitespace follows, the last whitespace character (backtracking
    of [\s*]). *)
Definition match_speaker (l : chars) : option (chars * chars) :=
  match l with
  | c :: _ =>
      if is_upper c then
        match break_at ":"%char l with
        | Some (before, after) =>
            let rem := drop_while is_ws after in
            match rem with
            | [] => match rev (take_while is_ws after) with
                    | x :: _ => Some (before, [x])
                    | [] => None
                    end
            | _ => Some (before, rem)
            end
        | None => None
        end
      else None
  | [] => None
  end.

(** [\[([a-z]+)\]] with the [i] flag, anchored at the head of [l]: the
    captured name and the rest after the closing bracket. *)
Definition match_tag_at (l : chars) : option (chars * chars) :=
  match l with
  | c :: l' =>
      if Ascii.eqb c "["%char then
        match take_while is_letter_ci l' with
        | [] => None
        | name =>
            match skipn (length name) l' with
            | d :: rest => if Ascii.eqb d "]"%char then Some (name, rest) else None
            | [] => None
            end
        end
      else None
  | [] => None
  end.

(** [cleanText.match(/\[([a-z]+)\]/i)]: the first tag's name. *)
Fixpoint find_tag (l : chars) : option chars :=
  match match_tag_at l with
  | Some (name, _) => Some name
  | None => match l with [] => None | _ :: l' => find_tag l' end
  end.

(** [cleanText.replace(/\[[a-z]+\]/gi, '')]. *)
Fixpoint remove_tags (fuel : nat) (l : chars) : chars :=
  match fuel with
  | O => l
  | S f =>
      match match_tag_at l with
      | Some (_, rest) => remove_tags f rest
      | None => match l with [] => [] | c :: l' => c :: remove_tags f l' end
      end
  end.

(** [s.replace(/<[^>]*>/g, '')] for [o = '<'], [c = '>'] (and likewise
    [{...}]). *)
Fixpoint remove_delimited (o c : ascii) (fuel : nat) (l : chars) : chars :=
  match fuel with
  | O => l
  | S f =>
      match l with
      | [] => []
      | d :: l' =>
          if Ascii.eqb d o then
            match break_at c l' with
            | Some (_, rest) => remove_delimited o c f rest
            | None => d :: remove_delimited o c f l'
            end
          else d :: remove_delimited o c f l'
      end
  end.

Record SubtitleEmotion := mkSubEmotion {
  primary : string;
  se_intensity : Q;
  confidence : Q }.

(** [parseTextAnnotations]: clean text, speaker, emotion. *)
Definition parseTextAnnotations (text : chars)
  : chars * option chars * option SubtitleEmotion :=
  let '(cleanText, speaker) :=
    match match_speaker text with
    | Some (g1, g2) => (trim g2, Some (trim g1))
    | None => (text, None)
    end in
  let '(cleanText, emotion) :=
    match find_tag cleanText with
    | Some name =>
        (trim (remove_tags (length cleanText) cleanText),
         Some (mkSubEmotion (string_of_list_ascii (map lower_char name)) (7#10) (8#10)))
    | None => (cleanText, None)
    end in
  let cleanText := remove_delimited "<"%char ">"%char (length cleanText) cleanText in
  let cleanText := remove_delimited "{"%char "}"%char (length cleanText) cleanText in
  (trim cleanText, speaker, emotion).

Record SubtitleEntry := mkEntry {
  index : Z;
  se_startTime : Q;
  se_endTime : Q;
  startTimecode : string;
  endTimecode : string;
  se_text : string;
  speaker : option string;
  emotion : option SubtitleEmotion }.

Record SubtitleTrack := mkSubtitleTrack {
  st_id : string;
  language : string;
  format : string;
  entries : list SubtitleEntry;
  totalEntries : nat }.

(** The loop body of [parseSRT] for one block. *)
Definition parse_block (block : chars) : option SubtitleEntry :=
  let lines := map trim (split_char nl block) in
  if (length lines <? 3)%nat then None else
  match parseInt (nth 0 lines []) with
  | None => None
  | Some idx =>
    match match_time (nth 1 lines []) with
    | None => None
    | Some (a, b) =>
        let startT := parseTimeToSeconds a in
        let endT := parseTimeToSeconds b in
        let '(cleanText, spk, emo) := parseTextAnnotations (join nl (skipn 2 lines)) in
        Some (mkEntry idx startT endT
                (string_of_list_ascii (secondsToTimecode startT))
                (string_of_list_ascii (secondsToTimecode endT))
                (string_of_list_ascii cleanText)
                (option_map string_of_list_ascii spk) emo)
    end
  end.

(** [parseSRT]. *)
Definition parseSRT (content : string) : SubtitleTrack :=
  let blocks := filter (fun b => match trim b with [] => false | _ => true end)
                       (split_blocks (list_ascii_of_string content)) in
  let es := flat_map (fun b => match parse_block b with
                               | Some e => [e] | None => [] end) blocks in
  mkSubtitleTrack "subtitle_track" "en" "srt" es (length es).

(** The SRT block of the spec's round-trip scenario:
    [1\n00:00:01,000 --> 00:00:03,000\nALICE: Hello [happy]!\n]. *)
Definition alice_block : string :=
  "1" ++ String nl ("00:00:01,000 --> 00:00:03,000" ++
  String nl ("ALICE: Hello [happy]!" ++ String nl "")).

End Subtitle.

(* ------------------------------------------------------------------ *)
(** ** Concrete inputs used by the statements below *)

Module Scenarios.
Import Conv.
Open Scope Q_scope.

(** A one-frame master: [10/441 ms * 44.1 samples/ms = 1] frame. *)
Definition one_frame_timeline : ConversationTimeline :=
  mkConvTimeline (10#441) [] [].

(** A track with one loud stereo frame at time 0. *)
Definition loud_track (id : string) : AudioTrackResult :=
  mkTrack id id [30000; 30000]%Z
    [mkSegment ("line_" ++ id) 0 (10#441) "hey" [30000; 30000]%Z] (10#441).

Definition two_loud_tracks : list AudioTrackResult :=
  [loud_track "A"; loud_track "B"].

Definition plain_mixing : MixingOptions := mkMixing true true false 0 false.

(** A quiet stereo frame: peak 100. *)
Definition quiet_frame : list Z := [100; 0]%Z.

Import EmotionEngine.

Definition neutral_half : EmotionProfile := mkProfile "neutral" (1#2).

Definition calm_text : string := "I was calm, but then I became really excited!".

(** A calm-to-excited transition at 0 ms lasting 100 ms (below the
    500 ms minimum). *)
Definition short_transition : EmotionTransition :=
  mkTransition (mkProfile "calm" (6#10)) (mkProfile "excited" (9#10)) 100
    ease_in_out None (mkTrigger None (Some 0) None None).

(** The same transition with a negative duration. *)
Definition backwards_transition : EmotionTransition :=
  mkTransition (mkProfile "calm" (6#10)) (mkProfile "excited" (9#10)) (-100)
    ease_in_out None (mkTrigger None (Some 0) None None).

(** A bezier transition at 0 ms lasting 1000 ms, given no control points. *)
Definition bezier_no_points : EmotionTransition :=
  mkTransition (mkProfile "calm" (6#10)) (mkProfile "excited" (9#10)) 1000
    bezier (Some []) (mkTrigger None (Some 0) None None).

Definition hello_text : string := "hello world".

Definition alice : ConversationCharacter := mkCharacter "A" "Alice".
Definition bob : ConversationCharacter := mkCharacter "B" "Bob".

Definition global500 : ConversationGlobalSettings := mkGlobal 500 200 1 true.

(** A line with no explicit pause, speed modifier or overlap. *)
Definition plain_line (id ch txt : string) : DialogueLine :=
  mkLine id ch txt None (mkTiming 0 None None None None None).

(** The spec's multi-character scenario: 12, 8 and 5 words. *)
Definition scheduler_dialogue : list DialogueLine :=
  [plain_line "A1" "A" "I have been waiting here all morning for you to finally arrive";
   plain_line "B1" "B" "Sorry, the traffic was worse than I expected";
   plain_line "A2" "A" "Well, you are here now"].

(** A conversation with characters but no dialogue. *)
Definition empty_request : Manager.ConversationGenerationRequest :=
  Manager.mkRequest (mkConversation "c0" "Empty" [alice; bob] [] global500) None.

(** The second line starts right where the first ends (pause 0). *)
Definition back_to_back_dialogue : list DialogueLine :=
  [plain_line "L1" "A" "Hello there";
   mkLine "L2" "B" "Hi" None (mkTiming 0 None (Some 0) None None None)].

Definition back_to_back_request : Manager.ConversationGenerationRequest :=
  Manager.mkRequest
    (mkConversation "c1" "Back to back" [alice; bob] back_to_back_dialogue global500)
    None.

(** A voice engine returning empty audio. *)
Definition silent_voice (c : ConversationCharacter) (l : DialogueLine) : Result (list Z) :=
  Ok [].

(** A character manager that accepts every cast. *)
Definition init_ok (cs : list ConversationCharacter) : Result unit := Ok tt.

End Scenarios.

(* ------------------------------------------------------------------ *)
(** ** src/unnamed/part_008 : the other EmotionCurves functions *)

Module EmotionCurveFns.
Import EmotionEngine.
Open Scope Q_scope.

(** [EmotionCurves.easeIn]. *)
Definition easeIn (progress : Q) : Q := progress * progress.

(** [EmotionCurves.easeOut]: [1 - Math.pow(1 - progress, 2)]. *)
Definition easeOut (progress : Q) : Q := 1 - (1 - progress) * (1 - progress).

(** [EmotionCurves.easeInOut]. *)
Definition easeInOut (progress : Q) : Q :=
  if Qlt_le_dec progress (1 # 2) then 2 * progress * progress
  else 1 - ((-2 * progress + 2) * (-2 * progress + 2)) / 2.

(** [EmotionCurves.bounce]. In [7.5625 * (progress -= x) * progress] the
    left factor is evaluated first, so both factors read the updated
    [progress]. *)
Definition bounce (progress : Q) : Q :=
  let k := 121 # 16 in
  if Qlt_le_dec progress (1 / (11 # 4)) then k * progress * progress
  else if Qlt_le_dec progress (2 / (11 # 4)) then
    let p := progress - (3 # 2) / (11 # 4) in k * p * p + (3 # 4)
  else if Qlt_le_dec progress ((5 # 2) / (11 # 4)) then
    let p := progress - (9 # 4) / (11 # 4) in k * p * p + (15 # 16)
  else
    let p := progress - (21 # 8) / (11 # 4) in k * p * p + (63 # 64).

(** The default parameter of [EmotionCurves.bezier]:
    [[[0.25, 0.1], [0.75, 0.9]]]; it applies when [controlPoints] is
    [undefined] ([None]). *)
Definition default_controlPoints : list (Q * Q) := [(1 # 4, 1 # 10); (3 # 4, 9 # 10)].

(** [EmotionCurves.getCurveFunction(curve, controlPoints).calculate]; a
    [None] result is the [TypeError] of [bezier] on fewer than two
    control points. *)
Definition getCurveFunction (c : TransitionCurve) (controlPoints : option (list (Q * Q)))
  : Q -> option Q :=
  match c with
  | linear => fun p => Some (EmotionCurves.linear p)
  | ease_in => fun p => Some (easeIn p)
  | ease_out => fun p => Some (easeOut p)
  | ease_in_out => fun p => Some (easeInOut p)
  | bezier => fun p => EmotionCurves.bezier p
                         (match controlPoints with
                          | Some cps => cps
                          | None => default_controlPoints
                          end)
  end.

(** [EmotionCurves.interpolateEmotionIntensity]. *)
Definition interpolateEmotionIntensity (fromIntensity toIntensity progress : Q)
  (c : TransitionCurve) (controlPoints : option (list (Q * Q))) : option Q :=
  match getCurveFunction c controlPoints progress with
  | Some easedProgress => Some (fromIntensity + (toIntensity - fromIntensity) * easedProgress)
  | None => None
  end.

(** [EmotionCurves.naturalEmotionCurve]. *)
Definition naturalEmotionCurve (progress : Q) (emotionType : string) : Q :=
  if String.eqb emotionType "happy" || String.eqb emotionType "excited" then
    (if Qlt_le_dec progress (3 # 10) then easeIn (progress / (3 # 10)) else 1)
  else if String.eqb emotionType "sad" || String.eqb emotionType "calm" then
    easeInOut progress
  else if String.eqb emotionType "angry" || String.eqb emotionType "fearful" then
    (if Qlt_le_dec progress (2 # 10) then easeIn (progress / (2 # 10)) * (8 # 10)
     else (8 # 10) + (progress - (2 # 10)) * (25 # 100))
  else if String.eqb emotionType "surprised" then
    (if Qlt_le_dec progress (1 # 10) then 1 else 1 - (progress - (1 # 10)) * (3 # 10))
  else easeInOut progress.

(** The search loop of [smoothMultiTransition]: the first adjacent pair
    [(emotions[i], emotions[i+1])] with
    [emotions[i].time <= currentTime <= emotions[i+1].time]. A keyframe
    [{time, intensity}] is the pair [(time, intensity)]. *)
Fixpoint bracket (currentTime : Q) (emotions : list (Q * Q))
  : option ((Q * Q) * (Q * Q)) :=
  match emotions with
  | x :: ((y :: _) as rest) =>
      if Qle_bool (fst x) currentTime && Qle_bool currentTime (fst y)
      then Some (x, y) else bracket currentTime rest
  | _ => None
  end.

(** [EmotionCurves.smoothMultiTransition] (with the default curve
    ['ease-in-out'] of [interpolateEmotionIntensity]). With two or more
    keyframes [before] and [after] are always defined, so the
    [!before || !after] branch is never taken and is omitted. *)
Definition smoothMultiTransition (emotions : list (Q * Q))
  (currentTime totalDuration : Q) : option Q :=
  match emotions with
  | [] => Some 0
  | [e] => Some (snd e)
  | e0 :: e1 :: _ =>
      let '(before, after) :=
        match bracket currentTime emotions with
        | Some p => p
        | None => (e0, e1)
        end in
      let segmentDuration := fst after - fst before in
      let progress := if Qlt_le_dec 0 segmentDuration
                      then (currentTime - fst before) / segmentDuration else 0 in
      interpolateEmotionIntensity (snd before) (snd after) progress ease_in_out None
  end.

End EmotionCurveFns.

(* ------------------------------------------------------------------ *)
(** ** src/src/core/emotion-transition-engine.ts : the processing pipeline *)

Module EmotionEngineRun.
Import JsString EmotionEngine.
Open Scope Q_scope.

(** A JavaScript number of the segment code: a rational, or [NaN]. *)
Inductive JsNum := Num (q : Q) | NaN.

(** The [EmotionProfile] built by [getEmotionAtTime] and
    [interpolateEmotion]; its [variations] are always [[]]. *)
Record EmotionAtTime := mkEmotionAtTime {
  ea_type : string;
  ea_intensity : JsNum }.

(** The object returned by [getTransitionAtTime]. *)
Record TransitionData := mkTransitionData {
  td_fromEmotion : EmotionProfile;
  td_toEmotion : EmotionProfile;
  td_progress : JsNum }.

Record EmotionSegment := mkEmotionSegment {
  sg_startTime : Q;
  sg_endTime : Q;
  sg_text : string;
  sg_emotion : EmotionAtTime;
  isTransition : bool;
  transitionData : option TransitionData }.

Record EmotionTransitionResult := mkResult {
  timeline : EmotionTimeline;
  segments : list EmotionSegment;
  totalDuration : Q;
  transitionCount : nat }.

(** [cp1[1]] or [cp2[1]] of [EmotionCurves.bezier] on a missing point. *)
Definition bezier_type_error : string :=
  "TypeError: Cannot read properties of undefined (reading '1')".

Section Pipeline.

(** [text.match(new RegExp(`\\[${marker}\\]`, 'i'))] for a text and a
    marker: [Err] when the pattern is not a valid regular expression (the
    [SyntaxError] of [new RegExp]), [Ok None] when nothing matches
    ([null]), [Ok (Some i)] for a match at [match.index = i]. Regular
    expressions are not modelled: what is proved below holds for every
    such search. *)
Variable markerMatch : string -> string -> Result (option nat).

(** [calculateTriggerTime]: precedence time > word > position > marker;
    [-1] when nothing is found. *)
Definition calculateTriggerTime (text : string) (tr : EmotionTransition) : Result Q :=
  let trigger := triggers tr in
  match tr_time trigger with
  | Some t => Ok t
  | None =>
    let by_word :=
      match truthy_string (tr_word trigger) with
      | Some w => indexOf (toLowerCase text) (toLowerCase w)
      | None => None
      end in
    match by_word with
    | Some i => Ok (chars_to_ms (inject_Z (Z.of_nat i)))
    | None =>
      match tr_position trigger with
      | Some p => Ok (chars_to_ms p)
      | None =>
        match truthy_string (tr_marker trigger) with
        | Some m =>
            match markerMatch text m with
            | Err e => Err e
            | Ok (Some i) => Ok (chars_to_ms (inject_Z (Z.of_nat i)))
            | Ok None => Ok (-1)
            end
        | None => Ok (-1)
        end
      end
    end
  end.

(** The keyframes pushed for one transition. *)
Definition transition_keyframes (text : string) (tr : EmotionTransition)
  : Result (list EmotionKeyframe) :=
  triggerTime <- calculateTriggerTime text tr ;;
  Ok (if Qle_bool 0 triggerTime then
        [mkKeyframe triggerTime (ep_type (fromEmotion tr))
                    (ep_intensity (fromEmotion tr)) (Some tr);
         mkKeyframe (triggerTime + duration tr) (ep_type (toEmotion tr))
                    (ep_intensity (toEmotion tr)) None]
      else []).

(** The [for] loop over the transitions; a throw ends it. *)
Fixpoint transitions_keyframes (text : string) (transitions : list EmotionTransition)
  : Result (list EmotionKeyframe) :=
  match transitions with
  | [] => Ok []
  | tr :: rest =>
      ks <- transition_keyframes text tr ;;
      ks' <- transitions_keyframes text rest ;;
      Ok (app ks ks')
  end.

(** The keyframes in push order: the default emotion at 0, then two per
    transition whose trigger was found. *)
Definition pushed_keyframes (text : string)
  (transitions : list EmotionTransition) (defaultEmotion : EmotionProfile)
  : Result (list EmotionKeyframe) :=
  ks <- transitions_keyframes text transitions ;;
  Ok (mkKeyframe 0 (ep_type defaultEmotion) (ep_intensity defaultEmotion) None :: ks).

(** [createEmotionTimeline]. *)
Definition createEmotionTimeline (text : string)
  (transitions : list EmotionTransition) (defaultEmotion : EmotionProfile)
  : Result EmotionTimeline :=
  ks <- pushed_keyframes text transitions defaultEmotion ;;
  Ok (mkTimeline (sort_kf ks) (estimateAudioDuration text) defaultEmotion).

End Pipeline.

(** [splitTextIntoWords]: [text.split(/\s+/).filter(word => word.length > 0)]. *)
Definition splitTextIntoWords (text : string) : list string :=
  filter (fun w => negb (String.eqb w EmptyString)) (split_ws text).

(** [(time - keyframe.time) / transition.duration], evaluated only inside
    the window [keyframe.time <= time <= keyframe.time + duration]: there
    a zero duration forces [time = keyframe.time], and [0 / 0] is [NaN]. *)
Definition window_progress (time kt d : Q) : JsNum :=
  if Qeq_bool d 0 then NaN else Num ((time - kt) / d).

(** [getTransitionAtTime] on the keyframe list. *)
Fixpoint transition_at (kfs : list EmotionKeyframe) (time : Q) : option TransitionData :=
  match kfs with
  | [] => None
  | k :: rest =>
      match kf_transition k with
      | Some tr =>
          if Qle_bool (kf_time k) time && Qle_bool time (kf_time k + duration tr)
          then Some (mkTransitionData (fromEmotion tr) (toEmotion tr)
                       (window_progress time (kf_time k) (duration tr)))
          else transition_at rest time
      | None => transition_at rest time
      end
  end.

Definition getTransitionAtTime (tl : EmotionTimeline) (time : Q) : option TransitionData :=
  transition_at (keyframes tl) time.

(** [Math.max(0, Math.min(1, progress))]; [NaN] stays [NaN]. *)
Definition clamp_js (p : JsNum) : JsNum :=
  match p with
  | Num q => Num (Qmax 0 (Qmin 1 q))
  | NaN => NaN
  end.

(** [EmotionCurves.interpolateEmotionIntensity] on a JavaScript number;
    [None] is the [TypeError] of [bezier]. [NaN] goes through every curve
    and through the arithmetic as [NaN], but [bezier] reads [cp1[1]] and
    [cp2[1]] whatever the progress, and throws on fewer than two points. *)
Definition interpolate_js (fromIntensity toIntensity : Q) (p : JsNum)
  (c : TransitionCurve) (cps : option (list (Q * Q))) : option JsNum :=
  match p with
  | Num q => option_map Num
               (EmotionCurveFns.interpolateEmotionIntensity fromIntensity toIntensity q c cps)
  | NaN =>
      match c, cps with
      | bezier, Some [] | bezier, Some [_] => None
      | _, _ => Some NaN
      end
  end.

(** The transitions whose curve [interpolateEmotion] can evaluate: all but
    a bezier curve given fewer than two control points. *)
Definition curve_usable (tr : EmotionTransition) : bool :=
  match curve tr, controlPoints tr with
  | bezier, Some [] | bezier, Some [_] => false
  | _, _ => true
  end.

(** [interpolateEmotion] ([toKeyframe] is not read). The type switches at
    progress 0.5; [NaN < 0.5] is false. *)
Definition interpolateEmotion (fromKeyframe toKeyframe : EmotionKeyframe)
  (currentTime : Q) (tr : EmotionTransition) : Result EmotionAtTime :=
  let progress := window_progress currentTime (kf_time fromKeyframe) (duration tr) in
  let clampedProgress := clamp_js progress in
  match interpolate_js (ep_intensity (fromEmotion tr)) (ep_intensity (toEmotion tr))
          clampedProgress (curve tr) (controlPoints tr) with
  | None => Err bezier_type_error
  | Some intensity =>
      let emotionType :=
        match clampedProgress with
        | Num q => if Qlt_le_dec q (1 # 2) then ep_type (fromEmotion tr)
                   else ep_type (toEmotion tr)
        | NaN => ep_type (toEmotion tr)
        end in
      Ok (mkEmotionAtTime emotionType intensity)
  end.

(** The search loop of [getEmotionAtTime]: the first adjacent pair
    [(keyframes[i], keyframes[i+1])] around [time]. *)
Fixpoint emotion_between (kfs : list EmotionKeyframe) (time : Q)
  : option (Result EmotionAtTime) :=
  match kfs with
  | current :: ((next :: _) as rest) =>
      if Qle_bool (kf_time current) time && Qle_bool time (kf_time next) then
        Some (match kf_transition current with
              | Some tr =>
                  if Qle_bool time (kf_time current + duration tr)
                  then interpolateEmotion current next time tr
                  else Ok (mkEmotionAtTime (kf_emotion current) (Num (kf_intensity current)))
              | None => Ok (mkEmotionAtTime (kf_emotion current) (Num (kf_intensity current)))
              end)
      else emotion_between rest time
  | _ => None
  end.

(** [getEmotionAtTime]: after the loop, the last keyframe; on an empty
    list [lastKeyframe.emotion] throws. *)
Definition getEmotionAtTime (tl : EmotionTimeline) (time : Q) : Result EmotionAtTime :=
  match emotion_between (keyframes tl) time with
  | Some r => r
  | None =>
      match rev (keyframes tl) with
      | lastKeyframe :: _ =>
          Ok (mkEmotionAtTime (kf_emotion lastKeyframe) (Num (kf_intensity lastKeyframe)))
      | [] => Err "TypeError: Cannot read properties of undefined (reading 'emotion')"
      end
  end.

(** The loop of [generateEmotionSegments] from the word list on. *)
Fixpoint segments_loop (tl : EmotionTimeline) (words : list string) (currentTime : Q)
  : Result (list EmotionSegment) :=
  match words with
  | [] => Ok []
  | word :: rest =>
      let wordDuration := inject_Z (Z.of_nat (String.length word)) / 15 * 1000 in
      let segmentEndTime := currentTime + wordDuration in
      emotionAtTime <- getEmotionAtTime tl currentTime ;;
      let td := getTransitionAtTime tl currentTime in
      segs <- segments_loop tl rest segmentEndTime ;;
      Ok (mkEmotionSegment currentTime segmentEndTime word emotionAtTime
            (match td with Some _ => true | None => false end) td :: segs)
  end.

(** [generateEmotionSegments]. *)
Definition generateEmotionSegments (text : string) (tl : EmotionTimeline)
  : Result (list EmotionSegment) :=
  segments_loop tl (splitTextIntoWords text) 0.

(** [processEmotionTransitions]; a throw rejects the returned promise. *)
Definition processEmotionTransitions
  (markerMatch : string -> string -> Result (option nat))
  (text : string) (transitions : list EmotionTransition) (defaultEmotion : EmotionProfile)
  : Result EmotionTransitionResult :=
  tl <- createEmotionTimeline markerMatch text transitions defaultEmotion ;;
  segs <- generateEmotionSegments text tl ;;
  Ok (mkResult tl segs (estimateAudioDuration text) (length transitions)).

(** The marker search for a marker with no regular-expression
    metacharacter: a case-insensitive search of the literal [[marker]]. *)
Definition literal_markerMatch (text marker : string) : Result (option nat) :=
  Ok (indexOf (toLowerCase text) (toLowerCase (String.append "[" (String.append marker "]")))).

End EmotionEngineRun.

(* ------------------------------------------------------------------ *)
(** ** src/src/core/emotion-transition-engine.ts : blendEmotions *)

Module EmotionBlending.
Open Scope Q_scope.

Section Blend.
(** The element type of [EmotionProfile.variations]. *)
Variable EmotionVariation : Type.

Record Profile := mkProfileV {
  pv_type : string;
  pv_intensity : Q;
  pv_variations : list EmotionVariation }.

Record EmotionBlend := mkBlend {
  bl_primary : Profile;
  bl_secondary : Profile;
  blendRatio : Q }.

(** [EmotionTransitionEngine.blendEmotions]. *)
Definition blendEmotions (blend : EmotionBlend) : Profile :=
  let primary := bl_primary blend in
  let secondary := bl_secondary blend in
  let r := blendRatio blend in
  let intensity := pv_intensity primary * (1 - r) + pv_intensity secondary * r in
  let emotionType := if Qle_bool (pv_intensity secondary) (pv_intensity primary)
                     then pv_type primary else pv_type secondary in
  mkProfileV emotionType intensity (pv_variations primary ++ pv_variations secondary).

End Blend.
Arguments mkProfileV {EmotionVariation} pv_type pv_intensity pv_variations.
Arguments mkBlend {EmotionVariation} bl_primary bl_secondary blendRatio.

End EmotionBlending.

(* ------------------------------------------------------------------ *)
(** ** src/src/utils/prompt-parser.ts : parseVoicePrompt *)

Module VoicePrompt.
Import JsString PromptParser.
Open Scope Q_scope.

Inductive Age := child | young | adult | senior.
Inductive Timbre := deep | medium | high.
Inductive Pace := slow | normal | fast.

Definition includes_any (lowerPrompt : string) (keywords : list string) : bool :=
  existsb (includes lowerPrompt) keywords.

(** Age extraction: three [if]s in sequence, the last that holds wins. *)
Definition parseAge (lowerPrompt : string) : Age :=
  let a := adult in
  let a := if includes_any lowerPrompt ["child"; "kid"] then child else a in
  let a := if includes_any lowerPrompt ["young"; "teen"] then young else a in
  let a := if includes_any lowerPrompt ["old"; "senior"; "elderly"] then senior else a in
  a.

(** The [accents] object, in insertion order ([Object.entries]). *)
Definition accents : list (string * list string) :=
  [("australian", ["australian"; "aussie"]);
   ("british", ["british"; "uk"; "english"; "london"]);
   ("american", ["american"; "us"; "usa"]);
   ("irish", ["irish"; "ireland"]);
   ("scottish", ["scottish"; "scotland"]);
   ("southern", ["southern"; "texan"; "georgia"]);
   ("new york", ["new york"; "brooklyn"; "bronx"]);
   ("california", ["california"; "valley"; "surfer"])].

(** The [for ... break] loop over the accents. *)
Fixpoint firstAccent (table : list (string * list string)) (lowerPrompt : string) : string :=
  match table with
  | [] => "neutral"
  | (accentName, keywords) :: rest =>
      if includes_any lowerPrompt keywords then accentName else firstAccent rest lowerPrompt
  end.

Definition personalityMap : list (string * list string) :=
  [("cheerful", ["cheerful"; "happy"; "joyful"; "upbeat"]);
   ("calm", ["calm"; "peaceful"; "serene"; "relaxed"; "soothing"]);
   ("energetic", ["energetic"; "excited"; "dynamic"; "lively"]);
   ("wise", ["wise"; "contemplative"; "thoughtful"; "sage"]);
   ("friendly", ["friendly"; "warm"; "welcoming"; "kind"]);
   ("professional", ["professional"; "business"; "corporate"; "formal"]);
   ("dramatic", ["dramatic"; "theatrical"; "expressive"]);
   ("mysterious", ["mysterious"; "enigmatic"; "secretive"]);
   ("confident", ["confident"; "assertive"; "strong"]);
   ("gentle", ["gentle"; "soft"; "tender"; "caring"])].

(** The personality loop: every trait one of whose keywords occurs, in
    table order. *)
Definition parsePersonality (lowerPrompt : string) : list string :=
  map fst (filter (fun e => includes_any lowerPrompt (snd e)) personalityMap).

Definition parseTimbre (lowerPrompt : string) : Timbre :=
  if includes_any lowerPrompt ["deep"; "low"; "bass"] then deep
  else if includes_any lowerPrompt ["high"; "light"; "soprano"] then high
  else medium.

Definition parsePace (lowerPrompt : string) : Pace :=
  if includes_any lowerPrompt ["slow"; "relaxed"; "leisurely"] then slow
  else if includes_any lowerPrompt ["fast"; "quick"; "rapid"] then fast
  else normal.

(** [personality.includes(trait)]. *)
Definition has_trait (personality : list string) (trait : string) : bool :=
  existsb (String.eqb trait) personality.

Definition defaultEmotionType (personality : list string) : string :=
  if has_trait personality "cheerful" then "happy"
  else if has_trait personality "calm" then "calm"
  else if has_trait personality "energetic" then "excited"
  else if has_trait personality "dramatic" then "excited"
  else "neutral".

Record VoiceCharacteristics := mkVoice {
  vc_gender : Gender;
  vc_age : Age;
  vc_accent : string;
  vc_personality : list string;
  vc_defaultEmotion : EmotionEngine.EmotionProfile;
  vc_timbre : Timbre;
  vc_pace : Pace }.

(** [parseVoicePrompt]; the gender lines are [PromptParser.parseGender]. *)
Definition parseVoicePrompt (prompt : string) : VoiceCharacteristics :=
  let lowerPrompt := toLowerCase prompt in
  let personality := parsePersonality lowerPrompt in
  mkVoice (parseGender prompt) (parseAge lowerPrompt) (firstAccent accents lowerPrompt)
    personality
    (EmotionEngine.mkProfile (defaultEmotionType personality) (1 # 2))
    (parseTimbre lowerPrompt) (parsePace lowerPrompt).

End VoicePrompt.

(* ------------------------------------------------------------------ *)
(** ** src/src/video/format-readers/premiere-reader.ts : VTT and dispatch *)

Module SubtitleVTT.
Import JsString Subtitle.
Open Scope Q_scope.
Open Scope list_scope.

(** [(\d{2}):(\d{2}):(\d{2})\.(\d{3})] at the head of [l]. *)
Definition vtt_match_stamp (l : chars) : option ((Z * Z * Z * Z) * chars) :=
  match digits_n 2 l with None => None | Some (h, l) =>
  match expect ":"%char l with None => None | Some l =>
  match digits_n 2 l with None => None | Some (m, l) =>
  match expect ":"%char l with None => None | Some l =>
  match digits_n 2 l with None => None | Some (s, l) =>
  match expect "."%char l with None => None | Some l =>
  match digits_n 3 l with None => None | Some (ms, l) =>
  Some ((digits_value h, digits_value m, digits_value s, digits_value ms), l)
  end end end end end end end.

(** The VTT time regex anchored at the head of [l]. *)
Definition vtt_match_time_at (l : chars) : option ((Z * Z * Z * Z) * (Z * Z * Z * Z)) :=
  match vtt_match_stamp l with None => None | Some (a, l) =>
  let l := drop_while is_ws l in
  match expect "-"%char l with None => None | Some l =>
  match expect "-"%char l with None => None | Some l =>
  match expect ">"%char l with None => None | Some l =>
  let l := drop_while is_ws l in
  match vtt_match_stamp l with None => None | Some (b, _) => Some (a, b)
  end end end end end.

(** [line.match(...)]: the first position where the VTT regex matches. *)
Fixpoint vtt_match_time (l : chars) : option ((Z * Z * Z * Z) * (Z * Z * Z * Z)) :=
  match vtt_match_time_at l with
  | Some r => Some r
  | None => match l with [] => None | _ :: l' => vtt_match_time l' end
  end.

(** The entry pushed for a finished cue. *)
Definition cue_entry (idx : Z) (startT endT : Q) (cueText : list chars) : SubtitleEntry :=
  let '(cleanText, spk, emo) := parseTextAnnotations (join nl cueText) in
  mkEntry idx startT endT
    (string_of_list_ascii (secondsToTimecode startT))
    (string_of_list_ascii (secondsToTimecode endT))
    (string_of_list_ascii cleanText)
    (option_map string_of_list_ascii spk) emo.

(** The loop variables of [parseVTT]; [vs_entries] in push order. *)
Record VttState := mkVtt {
  vs_index : Z;
  vs_inCue : bool;
  vs_cueText : list chars;
  vs_startTime : Q;
  vs_endTime : Q;
  vs_entries : list SubtitleEntry }.

Definition vtt_init : VttState := mkVtt 0 false [] 0 0 [].

(** [line === 'WEBVTT' || line === ''] on the trimmed line. *)
Definition skipped_line (line : chars) : bool :=
  match line with
  | [] => true
  | _ => String.eqb (string_of_list_ascii line) "WEBVTT"
  end.

(** One iteration of the loop of [parseVTT] on the raw line [raw]. *)
Definition vtt_step (st : VttState) (raw : chars) : VttState :=
  let line := trim raw in
  if skipped_line line then st else
  match vtt_match_time line with
  | Some (a, b) =>
      let '(idx, es) :=
        if vs_inCue st && negb (Nat.eqb (length (vs_cueText st)) 0)
        then (vs_index st + 1, vs_entries st ++
                [cue_entry (vs_index st) (vs_startTime st) (vs_endTime st) (vs_cueText st)])%Z
        else (vs_index st, vs_entries st) in
      mkVtt idx true [] (parseTimeToSeconds a) (parseTimeToSeconds b) es
  | None =>
      if vs_inCue st then
        match line with
        | [] => mkVtt (vs_index st) false (vs_cueText st) (vs_startTime st)
                      (vs_endTime st) (vs_entries st)
        | _ => mkVtt (vs_index st) true (vs_cueText st ++ [line]) (vs_startTime st)
                     (vs_endTime st) (vs_entries st)
        end
      else st
  end.

Definition vtt_lines (lines : list chars) (st : VttState) : VttState :=
  fold_left vtt_step lines st.

(** The final [if (inCue && cueText.length > 0)] of [parseVTT]. *)
Definition vtt_finish (st : VttState) : list SubtitleEntry :=
  if vs_inCue st && negb (Nat.eqb (length (vs_cueText st)) 0)
  then vs_entries st ++
         [cue_entry (vs_index st) (vs_startTime st) (vs_endTime st) (vs_cueText st)]
  else vs_entries st.

(** [parseVTT]. *)
Definition parseVTT (content : string) : SubtitleTrack :=
  let es := vtt_finish (vtt_lines (split_char nl (list_ascii_of_string content)) vtt_init) in
  mkSubtitleTrack "subtitle_track" "en" "vtt" es (length es).

Inductive SubtitleFormat := srt | vtt | ass | ssa.

Definition format_name (f : SubtitleFormat) : string :=
  match f with srt => "srt" | vtt => "vtt" | ass => "ass" | ssa => "ssa" end.

(** [detectSubtitleFormat]: the numbered-entry regex test and the
    fallback both return ['srt']. *)
Definition detectSubtitleFormat (content : string) : SubtitleFormat :=
  if startsWith content "WEBVTT" then vtt
  else if includes content "[Script Info]" || includes content "[Events]" then ass
  else srt.

(** [SubtitleReader.parse] after [fs.readFile] and before
    [convertToTimeline]: the format switch. *)
Definition parseSubtitleContent (content : string) : Result SubtitleTrack :=
  match detectSubtitleFormat content with
  | srt => Ok (parseSRT content)
  | vtt => Ok (parseVTT content)
  | f => Err ("Unsupported subtitle format: " ++ format_name f)
  end.

End SubtitleVTT.

(* ------------------------------------------------------------------ *)
(** ** src/src/core/conversation-manager.ts : reading [characterUsage] *)

Module UsageLookup.
Import Conv Manager.
Open Scope Q_scope.

(** The speaking time of one line in [createConversationTimeline]. *)
Definition line_duration (line : DialogueLine) : Q :=
  endTime_or_default line - startTime (timing line).

(** Sum of the speaking times of the lines of character [id]. *)
Definition speaking_time (dialogue : list DialogueLine) (id : string) : Q :=
  fold_right Qplus 0
    (map line_duration (filter (fun l => String.eqb (characterId l) id) dialogue)).

End UsageLookup.

Module ValidationParts.
Import Conv Manager.

(** The test of the overlap loop of [validateConversationConfig] on one
    line: [line.timing.overlap?.targetLineId &&
    !lineIds.has(line.timing.overlap.targetLineId)], giving the missing
    target id. *)
Definition overlap_target_missing (lineIds : list string) (l : DialogueLine)
  : option string :=
  match overlap (timing l) with
  | Some o =>
      match ov_targetLineId o with
      | Some EmptyString | None => None
      | Some t => if existsb (String.eqb t) lineIds then None else Some t
      end
  | None => None
  end.

End ValidationParts.

(* ================================================================== *)
(** * Properties *)

Module PromptParserFacts.
Import JsString PromptParser.

(** C10: the [man] rule runs after the [female] rule and overwrites it:
    every prompt whose lowercase form contains [female] and [man] but not
    [woman] yields gender [male]; ["female human voice"] is one. *)
Theorem female_prompt_parsed_male :
  includes (toLowerCase "female human voice") "female" = true /\
  parseGender "female human voice" = male /\
  (forall prompt,
     includes (toLowerCase prompt) "female" = true ->
     includes (toLowerCase prompt) "man" = true ->
     includes (toLowerCase prompt) "woman" = false ->
     parseGender prompt = male).
Proof.
  split; [reflexivity | split; [reflexivity |]].
  intros prompt _ Hman Hwoman.
  unfold parseGender. rewrite Hman, Hwoman. simpl.
  destruct (includes (toLowerCase prompt) "female"); reflexivity.
Qed.

End PromptParserFacts.

Module EmotionCurvesFacts.
Import EmotionCurves.
Open Scope Q_scope.

Lemma bezier_diagonal_value (t : Q) :
  exists y, bezier t diagonal_points = Some y /\ y == 3 * t * t - 2 * t * t * t.
Proof.
  eexists. split; [reflexivity |]. cbn [snd]. ring.
Qed.

Lemma linear_in_unit (t : Q) : 0 <= t <= 1 -> linear t == t.
Proof.
  intros [H0 H1]. unfold linear.
  rewrite (Q.min_r 1 t) by exact H1. rewrite Q.max_r by exact H0. reflexivity.
Qed.

(** C8 (counterexample): at progress 1/4 the bezier easing with control
    points (0,0), (1,1) gives 5/32, while the linear easing gives 1/4:
    they differ by 3/32, far above any numerical tolerance. *)
Lemma bezier_diagonal_not_linear :
  exists y, bezier (1#4) diagonal_points = Some y /\ y == 5#32 /\
            linear (1#4) == 1#4 /\ ~ (Qabs (y - linear (1#4)) <= 1#20).
Proof.
  eexists. split; [reflexivity |].
  vm_compute. split; [reflexivity | split; [reflexivity |]].
  intros H. apply H. reflexivity.
Qed.

(** C8 (amended): on [0,1] the bezier easing with control points (0,0)
    and (1,1) is the smoothstep [3t^2 - 2t^3], which coincides with the
    linear easing exactly at t = 0, 1/2 and 1. *)
Theorem bezier_diagonal_smoothstep (t : Q) :
  0 <= t <= 1 ->
  exists y, bezier t diagonal_points = Some y /\
            y == 3 * t * t - 2 * t * t * t /\
            (y == linear t <-> t == 0 \/ t == 1#2 \/ t == 1).
Proof.
  intros Ht.
  destruct (bezier_diagonal_value t) as [y [Hy Hyv]].
  exists y. split; [exact Hy | split; [exact Hyv |]].
  rewrite (linear_in_unit t Ht), Hyv.
  assert (Hf : 3 * t * t - 2 * t * t * t - t == - (t * ((2 * t - 1) * (t - 1))))
    by ring.
  split.
  - intros Heq.
    assert (Hz : t * ((2 * t - 1) * (t - 1)) == 0).
    { rewrite <- (Qopp_involutive (t * _)). rewrite <- Hf, Heq. ring. }
    apply Qmult_integral in Hz. destruct Hz as [Hz | Hz].
    + left. exact Hz.
    + apply Qmult_integral in Hz. destruct Hz as [Hz | Hz].
      * right; left. lra.
      * right; right. lra.
  - intros [Hz | [Hz | Hz]]; rewrite Hz; reflexivity.
Qed.

Lemma bezier_diagonal_smoothstep_witness :
  (0 <= 1#4 <= 1) /\
  exists y, bezier (1#4) diagonal_points = Some y /\
            y == 3 * (1#4) * (1#4) - 2 * (1#4) * (1#4) * (1#4) /\
            (y == linear (1#4) <-> (1#4) == 0 \/ (1#4) == 1#2 \/ (1#4) == 1).
Proof.
  split; [split; vm_compute; discriminate |].
  apply (bezier_diagonal_smoothstep (1#4)). split; vm_compute; discriminate.
Defined.

End EmotionCurvesFacts.

Module SubtitleFacts.
Import Subtitle.
Open Scope Q_scope.

(** C9: the spec's SRT block parses to one entry with index 1, start
    1.0 s, end 3.0 s, speaker ALICE, emotion happy and text "Hello !". *)
Theorem parseSRT_alice_block :
  exists e, entries (parseSRT alice_block) = [e] /\
    index e = 1%Z /\ se_startTime e == 1 /\ se_endTime e == 3 /\
    speaker e = Some "ALICE" /\
    option_map primary (emotion e) = Some "happy" /\
    se_text e = "Hello !".
Proof.
  eexists. split; [vm_compute; reflexivity |].
  vm_compute. repeat split; reflexivity.
Qed.

End SubtitleFacts.

Module MixerFacts.
Import Conv Mixer.
Open Scope Z_scope.

Lemma fold_left_invariant {A B} (P : A -> Prop) (f : A -> B -> A) :
  (forall a b, P a -> P (f a b)) ->
  forall l a, P a -> P (fold_left f l a).
Proof.
  intros Hf l. induction l as [| b l IH]; intros a Ha; simpl; auto.
Qed.

Lemma clamp16_in_range (v : Z) : in_range16 (clamp16 v).
Proof. unfold in_range16, clamp16. lia. Qed.

Lemma write_slot_Forall (P : Z -> Prop) (buf : list Z) (k : nat) (v : Z) :
  Forall P buf -> P v -> Forall P (write_slot buf k v).
Proof.
  revert k. induction buf as [| h t IH]; intros k Hb Hv; simpl; auto.
  inversion Hb; subst. destruct k; constructor; auto.
Qed.

Lemma mix_frame_in_range (seg mix : list Z) (s i : nat) (vol : Q) :
  Forall in_range16 mix -> Forall in_range16 (mix_frame seg mix s i vol).
Proof.
  unfold mix_frame. apply fold_left_invariant.
  intros m c Hm. apply write_slot_Forall; [exact Hm | apply clamp16_in_range].
Qed.

Lemma mixAudioSegmentIntoBuffer_in_range (seg mix mix' : list Z) (s : Z) (vol : Q) :
  mixAudioSegmentIntoBuffer seg mix s vol = Ok mix' ->
  Forall in_range16 mix -> Forall in_range16 mix'.
Proof.
  unfold mixAudioSegmentIntoBuffer. intros H Hm.
  destruct (s <? 0).
  - destruct (0 <? _)%nat; inversion H; subst; exact Hm.
  - inversion H; subst. apply fold_left_invariant; [| exact Hm].
    intros m i Hm'. apply mix_frame_in_range. exact Hm'.
Qed.

Lemma mix_segments_in_range (evs : list TimelineEvent) (segs : list AudioSegment) :
  forall mix mix', mix_segments evs segs mix = Ok mix' ->
  Forall in_range16 mix -> Forall in_range16 mix'.
Proof.
  induction segs as [| sg segs IH]; intros mix mix' H Hm; simpl in H.
  - inversion H; subst; exact Hm.
  - destruct (mixAudioSegmentIntoBuffer _ _ _ _) as [m1 |] eqn:E;
      [| discriminate].
    apply (IH m1); [exact H |].
    exact (mixAudioSegmentIntoBuffer_in_range _ _ _ _ _ E Hm).
Qed.

Lemma mix_tracks_in_range (tl : ConversationTimeline) (tracks : list AudioTrackResult) :
  forall mix mix', mix_tracks tracks tl mix = Ok mix' ->
  Forall in_range16 mix -> Forall in_range16 mix'.
Proof.
  induction tracks as [| tr tracks IH]; intros mix mix' H Hm; simpl in H.
  - inversion H; subst; exact Hm.
  - destruct (mixTrackIntoBuffer tr tl mix) as [m1 |] eqn:E; [| discriminate].
    apply (IH m1); [exact H |].
    exact (mix_segments_in_range _ _ _ _ E Hm).
Qed.

Lemma map_visited_Forall (P : Z -> Prop) (f : Z -> Z) (buf : list Z) :
  P 0 -> (forall x, In x (visited buf) -> P (f x)) ->
  Forall P (map_visited f buf).
Proof.
  intros H0 Hf. unfold map_visited. apply Forall_app. split.
  - apply Forall_forall. intros y Hy. apply in_map_iff in Hy.
    destruct Hy as [x [<- Hx]]. apply Hf, Hx.
  - apply Forall_forall. intros y Hy. apply repeat_spec in Hy. subst. exact H0.
Qed.

Lemma normalizeAudio_in_range (buf : list Z) :
  Forall in_range16 buf -> Forall in_range16 (normalizeAudio buf).
Proof.
  intros Hb. unfold normalizeAudio. destruct (peak buf =? 0); [exact Hb |].
  apply map_visited_Forall.
  - unfold in_range16; lia.
  - intros x _. apply clamp16_in_range.
Qed.

Lemma applyCompression_in_range (buf : list Z) (level : Q) :
  Forall in_range16 (applyCompression buf level).
Proof.
  apply map_visited_Forall.
  - unfold in_range16; lia.
  - intros x _. apply clamp16_in_range.
Qed.

(** C5: every sample of a master buffer returned by [mixConversation] is
    a 16-bit value: the buffer starts as silence and every write of the
    mixing, normalization and compression loops is clamped to
    [-32768, 32767]. *)
Theorem mixConversation_samples_in_range
  (tracks : list AudioTrackResult) (tl : ConversationTimeline)
  (options : MixingOptions) (master : list Z) :
  mixConversation tracks tl options = Ok master ->
  Forall (fun s => -32768 <= s <= 32767) master.
Proof.
  unfold mixConversation. intros H.
  destruct tracks as [| t0 ts]; [discriminate |].
  destruct (_ <? 0); [discriminate |].
  destruct (mix_tracks _ tl _) as [mixed |] eqn:E; [| discriminate].
  simpl in H. inversion H; subst. clear H.
  assert (Hz : Forall in_range16 (repeat 0 (Z.to_nat
     (Qceiling (conv_totalDuration tl / 1000 * sampleRate)%Q) * channels))).
  { apply Forall_forall. intros y Hy. apply repeat_spec in Hy. subst.
    unfold in_range16; lia. }
  pose proof (mix_tracks_in_range tl _ _ _ E Hz) as Hm.
  assert (H1 : Forall in_range16
     (if normalizeAudio_opt options then normalizeAudio mixed else mixed)).
  { destruct (normalizeAudio_opt options);
      [apply normalizeAudio_in_range |]; exact Hm. }
  assert (H2 : Forall in_range16
     (if Qlt_le_dec 0 (compressionLevel options)
      then applyCompression
             (if normalizeAudio_opt options then normalizeAudio mixed else mixed)
             (compressionLevel options)
      else (if normalizeAudio_opt options then normalizeAudio mixed else mixed))).
  { destruct (Qlt_le_dec _ _); [apply applyCompression_in_range | exact H1]. }
  destruct (spatialAudioEnabled options); exact H2.
Qed.

Lemma peak_fold_ge (l : list Z) (a : Z) :
  a <= fold_left (fun p s => Z.max p (Z.abs s)) l a.
Proof.
  revert a. induction l as [| x l IH]; intros a; simpl; [lia |].
  specialize (IH (Z.max a (Z.abs x))). lia.
Qed.

Lemma peak_fold_in (l : list Z) (a x : Z) :
  In x l -> Z.abs x <= fold_left (fun p s => Z.max p (Z.abs s)) l a.
Proof.
  revert a. induction l as [| y l IH]; intros a Hin; simpl in *; [contradiction |].
  destruct Hin as [<- | Hin].
  - pose proof (peak_fold_ge l (Z.max a (Z.abs y))). lia.
  - apply IH, Hin.
Qed.

Lemma visited_le_peak (buf : list Z) (x : Z) :
  In x (visited buf) -> Z.abs x <= peak buf.
Proof. apply peak_fold_in. Qed.

(** [round(s * 32767 * 0.95 / p)] stays within [round(32767 * 0.95)] when
    [|s| <= p]. *)
Lemma round_scaled_bound (s p : Z) :
  0 < p -> Z.abs s <= p ->
  -31129 <= js_round (inject_Z s * normalizationFactor p) <= 31129.
Proof.
  intros Hp Hs.
  set (r := (inject_Z s / inject_Z p)%Q).
  assert (Hp' : (0 < inject_Z p)%Q)
    by (change 0%Q with (inject_Z 0); rewrite <- Zlt_Qlt; exact Hp).
  assert (Hr1 : (r <= 1)%Q).
  { unfold r. apply Qle_shift_div_r; [exact Hp' |].
    rewrite Qmult_1_l. rewrite <- Zle_Qle. lia. }
  assert (Hr2 : (-1 <= r)%Q).
  { unfold r. apply Qle_shift_div_l; [exact Hp' |].
    setoid_replace (-1 * inject_Z p)%Q with (inject_Z (- p)) by
      (rewrite inject_Z_opp; ring).
    rewrite <- Zle_Qle. lia. }
  assert (Hq : (inject_Z s * normalizationFactor p == r * (3112865 # 100))%Q).
  { unfold normalizationFactor, maxValue, r. field.
    intros Hz. rewrite Hz in Hp'. discriminate. }
  unfold js_round. rewrite Hq.
  set (q := (r * (3112865 # 100))%Q).
  assert (Hqb : (-(3112865 # 100) <= q <= 3112865 # 100)%Q) by (unfold q; lra).
  pose proof (Qfloor_le (q + (1 # 2))) as Hle.
  pose proof (Qlt_floor (q + (1 # 2))) as Hlt.
  rewrite inject_Z_plus in Hlt.
  assert (H1 : (inject_Z 1 == 1)%Q) by reflexivity.
  assert (Hlo : (inject_Z (-31130) == -31130)%Q) by reflexivity.
  assert (Hhi : (inject_Z 31130 == 31130)%Q) by reflexivity.
  set (F := inject_Z (Qfloor (q + (1 # 2)))) in *.
  split.
  - assert (H : (inject_Z (-31130) < F)%Q) by lra.
    unfold F in H. rewrite <- Zlt_Qlt in H. lia.
  - assert (H : (F < inject_Z 31130)%Q) by lra.
    unfold F in H. rewrite <- Zlt_Qlt in H. lia.
Qed.

(** C1 (counterexample): for the quiet frame [100, 0] (peak 100) the
    result is not the buffer scaled by [min(1, 32767*0.95/peak)] (which
    would leave it unchanged): [normalizeAudio] amplifies it to
    [31129, 0]. *)
Lemma normalizeAudio_not_capped :
  normalizeAudio Scenarios.quiet_frame = [31129; 0] /\
  ~ (forall buf, 0 < peak buf ->
       normalizeAudio buf =
       map_visited (fun s => clamp16 (js_round
         (inject_Z s * Qmin 1 (normalizationFactor (peak buf)))%Q)) buf).
Proof.
  split; [vm_compute; reflexivity |].
  intros H. specialize (H Scenarios.quiet_frame).
  assert (Hp : 0 < peak Scenarios.quiet_frame) by (vm_compute; reflexivity).
  specialize (H Hp). vm_compute in H. discriminate H.
Qed.

(** C1 (amended): when the peak is positive, [normalizeAudio] scales
    every sample by [32767*0.95/peak] with no cap at 1 (a factor above 1,
    i.e. amplification, whenever the peak is below [32767*0.95]), rounds
    and re-clamps it; every resulting sample has absolute value at most
    [round(32767*0.95) = 31129]. *)
Theorem normalizeAudio_peak_scaling (buf : list Z) :
  0 < peak buf ->
  normalizeAudio buf =
    map_visited (fun s => clamp16 (js_round
      (inject_Z s * normalizationFactor (peak buf))%Q)) buf /\
  ((inject_Z (peak buf) < maxValue)%Q -> (1 < normalizationFactor (peak buf))%Q) /\
  Forall (fun s => -31129 <= s <= 31129) (normalizeAudio buf).
Proof.
  intros Hp.
  assert (Heq : normalizeAudio buf =
    map_visited (fun s => clamp16 (js_round
      (inject_Z s * normalizationFactor (peak buf))%Q)) buf).
  { unfold normalizeAudio. destruct (Z.eqb_spec (peak buf) 0); [lia |].
    reflexivity. }
  split; [exact Heq | split].
  - intros Hlt. unfold normalizationFactor. apply Qlt_shift_div_l.
    + change 0%Q with (inject_Z 0). rewrite <- Zlt_Qlt. exact Hp.
    + rewrite Qmult_1_l. exact Hlt.
  - rewrite Heq. apply map_visited_Forall; [lia |].
    intros x Hx. pose proof (visited_le_peak buf x Hx) as Hxp.
    pose proof (round_scaled_bound x (peak buf) Hp Hxp). unfold clamp16. lia.
Qed.

Lemma normalizeAudio_peak_scaling_witness :
  0 < peak Scenarios.quiet_frame /\
  normalizeAudio Scenarios.quiet_frame =
    map_visited (fun s => clamp16 (js_round
      (inject_Z s * normalizationFactor (peak Scenarios.quiet_frame))%Q))
      Scenarios.quiet_frame /\
  ((inject_Z (peak Scenarios.quiet_frame) < maxValue)%Q ->
     (1 < normalizationFactor (peak Scenarios.quiet_frame))%Q) /\
  Forall (fun s => -31129 <= s <= 31129) (normalizeAudio Scenarios.quiet_frame).
Proof.
  split; [vm_compute; reflexivity |].
  apply (normalizeAudio_peak_scaling Scenarios.quiet_frame).
  vm_compute; reflexivity.
Defined.

Lemma mixConversation_samples_in_range_witness :
  Forall (fun s => -32768 <= s <= 32767)
    [32767; 32767] /\
  mixConversation Scenarios.two_loud_tracks Scenarios.one_frame_timeline
    Scenarios.plain_mixing = Ok [32767; 32767].
Proof.
  split; [| vm_compute; reflexivity].
  apply (mixConversation_samples_in_range Scenarios.two_loud_tracks
           Scenarios.one_frame_timeline Scenarios.plain_mixing).
  vm_compute; reflexivity.
Defined.

End MixerFacts.

Module JsSortFacts.
Import JsSort.
Open Scope Q_scope.

Section ByTime.
Variable A : Type.
Variable time : A -> Q.

Definition time_le (x y : A) : Prop := time x <= time y.

Lemma in_insert_by (x y : A) (l : list A) :
  In y (insert_by time x l) <-> y = x \/ In y l.
Proof.
  induction l as [| z l IH]; simpl; [intuition congruence |].
  destruct (Qle_bool (time x) (time z)); simpl; [intuition congruence |].
  rewrite IH. intuition congruence.
Qed.

Lemma in_sort_by (y : A) (l : list A) : In y (sort_by time l) <-> In y l.
Proof.
  induction l as [| x l IH]; simpl; [tauto |].
  rewrite in_insert_by, IH. intuition congruence.
Qed.

Lemma insert_by_sorted (x : A) (l : list A) :
  Sorted time_le l -> Sorted time_le (insert_by time x l).
Proof.
  induction l as [| z l IH]; intros Hs; simpl.
  - repeat constructor.
  - destruct (Qle_bool (time x) (time z)) eqn:E.
    + constructor; [exact Hs |]. constructor. apply Qle_bool_iff, E.
    + assert (Hzx : time z <= time x).
      { apply Qlt_le_weak, Qnot_le_lt. intros H.
        apply Qle_bool_iff in H. congruence. }
      inversion Hs as [| ? ? Hs' Hhd]; subst.
      constructor; [apply IH, Hs' |].
      destruct l as [| w l]; simpl; [constructor; exact Hzx |].
      destruct (Qle_bool (time x) (time w)); constructor;
        [exact Hzx | inversion Hhd; assumption].
Qed.

Lemma sort_by_sorted (l : list A) : Sorted time_le (sort_by time l).
Proof.
  induction l as [| x l IH]; simpl; [constructor |].
  apply insert_by_sorted, IH.
Qed.

(** Stability: the elements of any one time keep their relative order. *)
Lemma insert_by_filter_time (t : Q) (x : A) (l : list A) :
  filter (fun y => Qeq_bool (time y) t) (insert_by time x l) =
  filter (fun y => Qeq_bool (time y) t) (x :: l).
Proof.
  induction l as [| z l IH]; simpl; [reflexivity |].
  destruct (Qle_bool (time x) (time z)) eqn:E; [reflexivity |].
  simpl. rewrite IH. simpl.
  destruct (Qeq_bool (time z) t) eqn:Ez; [| reflexivity].
  destruct (Qeq_bool (time x) t) eqn:Ex; [| reflexivity].
  exfalso. apply Qeq_bool_iff in Ez, Ex.
  assert (H : time x <= time z) by (rewrite Ex, Ez; apply Qle_refl).
  apply Qle_bool_iff in H. congruence.
Qed.

Lemma sort_by_filter_time (t : Q) (l : list A) :
  filter (fun y => Qeq_bool (time y) t) (sort_by time l) =
  filter (fun y => Qeq_bool (time y) t) l.
Proof.
  induction l as [| x l IH]; simpl; [reflexivity |].
  rewrite insert_by_filter_time. simpl. rewrite IH. reflexivity.
Qed.

(** An element not later than every other one stays in front. *)
Lemma sort_by_head (x : A) (l : list A) :
  (forall y, In y l -> time x <= time y) ->
  sort_by time (x :: l) = x :: sort_by time l.
Proof.
  intros H. simpl. destruct (sort_by time l) as [| y l'] eqn:E; [reflexivity |].
  simpl. assert (Hy : In y l) by (apply (in_sort_by y l); rewrite E; left; reflexivity).
  specialize (H y Hy). apply Qle_bool_iff in H. rewrite H. reflexivity.
Qed.

End ByTime.
Arguments time_le {A} time x y.
End JsSortFacts.

Module EmotionEngineFacts.
Import EmotionEngine EmotionEngineRun JsSortFacts.
Open Scope Q_scope.

Section Keyframes.

Variable markerMatch : string -> string -> Result (option nat).

(** The two keyframes of a transition whose trigger time is [t]. *)
Lemma transition_keyframes_eq (text : string) (tr : EmotionTransition) (t : Q) :
  calculateTriggerTime markerMatch text tr = Ok t ->
  transition_keyframes markerMatch text tr =
  Ok (if Qle_bool 0 t then
        [mkKeyframe t (ep_type (fromEmotion tr)) (ep_intensity (fromEmotion tr)) (Some tr);
         mkKeyframe (t + duration tr) (ep_type (toEmotion tr))
                    (ep_intensity (toEmotion tr)) None]
      else []).
Proof. intros H. unfold transition_keyframes. rewrite H. reflexivity. Qed.

Lemma transitions_keyframes_ok (text : string) (trs : list EmotionTransition) :
  (exists ks, transitions_keyframes markerMatch text trs = Ok ks) <->
  (forall tr, In tr trs -> exists t, calculateTriggerTime markerMatch text tr = Ok t).
Proof.
  induction trs as [| tr trs IH]; cbn [transitions_keyframes].
  - split; [intros _ tr [] | intros _; eexists; reflexivity].
  - split.
    + intros [ks H] tr' [<- | Htr'].
      * unfold transition_keyframes in H.
        destruct (calculateTriggerTime markerMatch text tr) as [t |]; [| discriminate].
        exists t. reflexivity.
      * destruct (transition_keyframes markerMatch text tr) as [ks1 |]; [| discriminate].
        cbn [bind] in H.
        destruct (transitions_keyframes markerMatch text trs) as [ks2 |]; [| discriminate].
        apply IH; [eexists; reflexivity | exact Htr'].
    + intros H.
      destruct (H tr (or_introl eq_refl)) as [t Ht].
      rewrite (transition_keyframes_eq text tr t Ht). cbn [bind].
      destruct IH as [_ IH]. destruct IH as [ks2 E2].
      { intros tr' Htr'. apply H. right. exact Htr'. }
      rewrite E2. eexists. reflexivity.
Qed.

Lemma in_transitions_keyframes (text : string) (trs : list EmotionTransition) :
  forall ks, transitions_keyframes markerMatch text trs = Ok ks ->
  forall k, In k ks <->
  exists tr t, In tr trs /\ calculateTriggerTime markerMatch text tr = Ok t /\ 0 <= t /\
    (k = mkKeyframe t (ep_type (fromEmotion tr)) (ep_intensity (fromEmotion tr)) (Some tr) \/
     k = mkKeyframe (t + duration tr) (ep_type (toEmotion tr))
                    (ep_intensity (toEmotion tr)) None).
Proof.
  induction trs as [| tr trs IH]; cbn [transitions_keyframes]; intros ks H k.
  - injection H as <-. split; [intros [] |]. intros (tr & t & [] & _).
  - unfold transition_keyframes in H.
    destruct (calculateTriggerTime markerMatch text tr) as [t |] eqn:Et; [| discriminate].
    cbn [bind] in H.
    destruct (transitions_keyframes markerMatch text trs) as [ks2 |] eqn:E2; [| discriminate].
    cbn [bind] in H. injection H as <-. rewrite in_app_iff, (IH ks2 eq_refl k).
    split.
    + intros [Hk | (tr' & t' & Htr' & Ht' & H0 & Hk)].
      * destruct (Qle_bool 0 t) eqn:E0; [| destruct Hk].
        apply Qle_bool_iff in E0.
        exists tr, t. split; [left; reflexivity | split; [exact Et | split; [exact E0 |]]].
        destruct Hk as [<- | [<- | []]]; [left | right]; reflexivity.
      * exists tr', t'. split; [right; exact Htr' | auto].
    + intros (tr' & t' & [<- | Htr'] & Ht' & H0 & Hk).
      * left. rewrite Et in Ht'. injection Ht' as <-.
        apply Qle_bool_iff in H0. rewrite H0.
        destruct Hk as [-> | ->]; [left | right; left]; reflexivity.
      * right. exists tr', t'. auto.
Qed.

Lemma createEmotionTimeline_ok (text : string) (trs : list EmotionTransition)
  (def : EmotionProfile) (tl : EmotionTimeline) :
  createEmotionTimeline markerMatch text trs def = Ok tl ->
  exists ks, transitions_keyframes markerMatch text trs = Ok ks /\
    keyframes tl = sort_kf (mkKeyframe 0 (ep_type def) (ep_intensity def) None :: ks).
Proof.
  unfold createEmotionTimeline, pushed_keyframes.
  destruct (transitions_keyframes markerMatch text trs) as [ks |]; [| discriminate].
  cbn [bind]. intros H. injection H as <-. exists ks. split; reflexivity.
Qed.

End Keyframes.

(** [interpolateEmotion] returns whenever the curve can be evaluated. *)
Lemma interpolateEmotion_ok (f n : EmotionKeyframe) (time : Q) (tr : EmotionTransition) :
  curve_usable tr = true -> exists e, interpolateEmotion f n time tr = Ok e.
Proof.
  unfold interpolateEmotion, curve_usable. cbv zeta. intros H.
  destruct (clamp_js _) as [q |]; cbn [interpolate_js];
  destruct (curve tr), (controlPoints tr) as [[| a [| b l]] |];
  try discriminate; eexists; reflexivity.
Qed.

Section Segments.

Variable tl : EmotionTimeline.
Hypothesis usable : forall k tr, In k (keyframes tl) -> kf_transition k = Some tr ->
  curve_usable tr = true.
Hypothesis nonempty : keyframes tl <> [].

Lemma emotion_between_ok (kfs : list EmotionKeyframe) (time : Q) :
  (forall k, In k kfs -> In k (keyframes tl)) ->
  forall r, emotion_between kfs time = Some r -> exists e, r = Ok e.
Proof.
  induction kfs as [| cur kfs IH]; intros Hin r; [discriminate |].
  destruct kfs as [| nxt kfs]; [discriminate |].
  cbn [emotion_between].
  destruct (Qle_bool _ _ && Qle_bool _ _).
  - intros H. injection H as <-.
    destruct (kf_transition cur) as [tr |] eqn:Etr; [| eexists; reflexivity].
    destruct (Qle_bool _ _); [| eexists; reflexivity].
    apply interpolateEmotion_ok. apply (usable cur); [apply Hin; left; reflexivity | exact Etr].
  - apply IH. intros k Hk. apply Hin. right. exact Hk.
Qed.

Lemma getEmotionAtTime_ok (time : Q) : exists e, getEmotionAtTime tl time = Ok e.
Proof.
  unfold getEmotionAtTime.
  destruct (emotion_between (keyframes tl) time) as [r |] eqn:E.
  - apply (emotion_between_ok (keyframes tl) time (fun k H => H) r E).
  - destruct (rev (keyframes tl)) as [| last ks] eqn:Er; [| eexists; reflexivity].
    exfalso. apply nonempty. rewrite <- (rev_involutive (keyframes tl)), Er. reflexivity.
Qed.

Lemma segments_loop_ok (words : list string) :
  forall t, exists segs, segments_loop tl words t = Ok segs.
Proof.
  induction words as [| w words IH]; intros t; cbn [segments_loop]; [eexists; reflexivity |].
  destruct (getEmotionAtTime_ok t) as [e ->]. cbn [bind].
  match goal with |- context [segments_loop tl words ?t'] =>
    destruct (IH t') as [segs ->] end.
  eexists. reflexivity.
Qed.

End Segments.

(** Every transition carried by a keyframe of the timeline is one of the
    given transitions. *)
Lemma timeline_transitions (markerMatch : string -> string -> Result (option nat))
  (text : string) (trs : list EmotionTransition) (def : EmotionProfile) (tl : EmotionTimeline) :
  createEmotionTimeline markerMatch text trs def = Ok tl ->
  keyframes tl <> [] /\
  forall k tr, In k (keyframes tl) -> kf_transition k = Some tr -> In tr trs.
Proof.
  intros H. destruct (createEmotionTimeline_ok markerMatch text trs def tl H) as [ks [Hks ->]].
  unfold sort_kf. split.
  - intros E. apply (in_nil (a := mkKeyframe 0 (ep_type def) (ep_intensity def) None)).
    rewrite <- E. apply in_sort_by. left. reflexivity.
  - intros k tr Hk Htr. apply in_sort_by in Hk. destruct Hk as [<- | Hk]; [discriminate |].
    apply (in_transitions_keyframes markerMatch text trs ks Hks k) in Hk.
    destruct Hk as (tr' & t & Htr' & _ & _ & [-> | ->]); cbn [kf_transition] in Htr;
      [injection Htr as <-; exact Htr' | discriminate].
Qed.




(** A bezier transition given an empty list of control points: the second
    word of [hello world] starts inside the transition, and
    [processEmotionTransitions] throws the [TypeError] of [bezier]. *)
Lemma processEmotionTransitions_bezier_no_points :
  processEmotionTransitions literal_markerMatch Scenarios.hello_text
    [Scenarios.bezier_no_points] Scenarios.neutral_half = Err bezier_type_error.
Proof. vm_compute. reflexivity. Qed.




End EmotionEngineFacts.

Module ManagerFacts.
Import JsString Conv Manager JsSortFacts.
Open Scope Q_scope.
Open Scope list_scope.

(** C3 (counterexample): a request with two characters and no dialogue
    line fails instead of returning an empty result. *)
Lemma empty_dialogue_fails :
  generateConversation Scenarios.init_ok Scenarios.silent_voice Scenarios.empty_request =
    Err "Conversation must have at least one dialogue line" /\
  ~ (exists r, generateConversation Scenarios.init_ok Scenarios.silent_voice
                 Scenarios.empty_request = Ok r).
Proof.
  split; [reflexivity |]. intros [r H]. discriminate H.
Qed.

(** C3 (amended): [generateConversation] rejects a plan with no dialogue
    line: it fails with "Conversation must have at least one dialogue
    line" (or, when the plan has no character either, with "Conversation
    must have at least one character"), whatever the voice engine. *)
Theorem generateConversation_empty_dialogue_error
  (initializeCharacters : list ConversationCharacter -> Result unit)
  (generateVoice : ConversationCharacter -> DialogueLine -> Result (list Z))
  (request : ConversationGenerationRequest) :
  dialogue (config request) = [] ->
  generateConversation initializeCharacters generateVoice request =
    Err (match characters (config request) with
         | [] => "Conversation must have at least one character"
         | _ => "Conversation must have at least one dialogue line"
         end).
Proof.
  intros Hd. unfold generateConversation, validateConversationConfig.
  rewrite Hd. destruct (characters (config request)); reflexivity.
Qed.

Lemma generateConversation_empty_dialogue_error_witness :
  dialogue (config Scenarios.empty_request) = [] /\
  generateConversation Scenarios.init_ok Scenarios.silent_voice Scenarios.empty_request =
    Err "Conversation must have at least one dialogue line".
Proof.
  split; [reflexivity |].
  exact (generateConversation_empty_dialogue_error Scenarios.init_ok Scenarios.silent_voice
           Scenarios.empty_request eq_refl).
Defined.

Lemma timing_loop_plain (g : ConversationGlobalSettings) (dl : list DialogueLine) :
  forall i before cursor,
  Forall plain_timing dl ->
  map line_times (timing_loop g i before dl cursor) =
  map line_times before ++
  map (fun p => (fst p, Some (snd p))) (claimed_schedule g (Nat.eqb i 0) cursor dl).
Proof.
  induction dl as [| line dl IH]; intros i before cursor Hp.
  - simpl. rewrite app_nil_r. reflexivity.
  - inversion Hp as [| ? ? [Hpb [Hsp Hov]] Hp']; subst.
    destruct line as [id ch tx et [st en pb pa ov sp]].
    simpl in Hpb, Hsp, Hov. subst.
    simpl timing_loop. rewrite IH by exact Hp'.
    rewrite map_app, <- app_assoc. simpl. reflexivity.
Qed.

(** C4: for lines without explicit pause, speed modifier or overlap,
    [processDialogueTiming] gives each line [start = cursor + pause]
    (0 for the first line, [pauseBetweenLines] otherwise) and
    [end = start + word_count / 3 * 1000] (word_count being
    [text.split(/\s+/).length]) and moves the cursor to
    [end + pauseAfter]; for the 12-, 8- and 5-word scenario with a
    500 ms pause, line 1 spans [0, 4000], line 2 starts at 4500 and lasts
    8000/3 ms (about 2667), and line 3 starts 500 ms after line 2 ends. *)
Theorem processDialogueTiming_plain_schedule :
  (forall (dl : list DialogueLine) (g : ConversationGlobalSettings),
     Forall plain_timing dl ->
     map line_times (processDialogueTiming dl g) =
     map (fun p => (fst p, Some (snd p))) (claimed_schedule g true 0 dl)) /\
  (exists s1 e1 s2 e2 s3 e3,
     map line_times
       (processDialogueTiming Scenarios.scheduler_dialogue Scenarios.global500) =
       [(s1, Some e1); (s2, Some e2); (s3, Some e3)] /\
     s1 == 0 /\ e1 == 4000 /\ s2 == e1 + 500 /\ e2 - s2 == 8000 # 3 /\
     Qabs (e2 - s2 - 2667) < 1 /\ s3 == e2 + 500).
Proof.
  split.
  - intros dl g Hp. unfold processDialogueTiming.
    rewrite (timing_loop_plain g dl 0 [] 0 Hp). reflexivity.
  - do 6 eexists. split; [vm_compute; reflexivity |].
    vm_compute. repeat split; reflexivity.
Qed.

Lemma generateConversation_timeline
  (initializeCharacters : list ConversationCharacter -> Result unit)
  (generateVoice : ConversationCharacter -> DialogueLine -> Result (list Z))
  (request : ConversationGenerationRequest) (r : ConversationResult) :
  generateConversation initializeCharacters generateVoice request = Ok r ->
  conv_timeline r = createConversationTimeline
    (processDialogueTiming (dialogue (config request)) (globalSettings (config request))).
Proof.
  unfold generateConversation.
  destruct (validateConversationConfig _); [| discriminate]. cbn [bind].
  destruct (initializeCharacters _); [| discriminate]. cbn [bind].
  destruct (generateCharacterAudioTracks _ _ _); [| discriminate]. cbn [bind].
  destruct (mixingOptions request) as [opts |].
  - destruct (enableAutomaticMixing opts).
    + destruct (Mixer.mixConversation _ _ _); [| discriminate].
      simpl. intros H; inversion H; reflexivity.
    + intros H; inversion H; reflexivity.
  - intros H; inversion H; reflexivity.
Qed.

(** C7 (counterexample): when a line starts with pause 0 exactly where
    the previous line ends, the generated event log has that line_end
    before the next line_start at the same time, against the stated
    priority order. *)
Lemma back_to_back_events_unordered :
  exists r,
    generateConversation Scenarios.init_ok Scenarios.silent_voice Scenarios.back_to_back_request = Ok r /\
    map ev_type (events (conv_timeline r)) =
      [line_start; line_end; line_start; line_end] /\
    claimed_sorted (events (conv_timeline r)) = false.
Proof.
  eexists. split; [reflexivity |]. vm_compute. split; reflexivity.
Qed.

(** C7 (amended): the event log of a generated conversation is sorted by
    time only, with a stable sort: events of equal time keep the order in
    which they were pushed (line by line, in dialogue order: line_start,
    line_end, the line's emotion_change events, overlap_start,
    overlap_end). *)
Theorem generateConversation_events_sorted_by_time
  (initializeCharacters : list ConversationCharacter -> Result unit)
  (generateVoice : ConversationCharacter -> DialogueLine -> Result (list Z))
  (request : ConversationGenerationRequest) (r : ConversationResult) :
  generateConversation initializeCharacters generateVoice request = Ok r ->
  Sorted (time_le ev_time) (events (conv_timeline r)) /\
  (forall t, filter (fun e => Qeq_bool (ev_time e) t) (events (conv_timeline r)) =
             filter (fun e => Qeq_bool (ev_time e) t)
               (flat_map line_events (processDialogueTiming
                  (dialogue (config request)) (globalSettings (config request))))).
Proof.
  intros H. rewrite (generateConversation_timeline _ _ _ _ H).
  unfold createConversationTimeline.
  destruct (fold_left _ _ _) as [total usage]. cbn [events].
  unfold sort_events. split.
  - apply sort_by_sorted.
  - intros t. apply sort_by_filter_time.
Qed.

Lemma generateConversation_events_sorted_by_time_witness :
  match generateConversation Scenarios.init_ok Scenarios.silent_voice Scenarios.back_to_back_request with
  | Ok r => Sorted (time_le ev_time) (events (conv_timeline r))
  | Err _ => False
  end.
Proof.
  destruct (generateConversation Scenarios.init_ok Scenarios.silent_voice Scenarios.back_to_back_request)
    as [r |] eqn:E.
  - exact (proj1 (generateConversation_events_sorted_by_time
                    Scenarios.init_ok Scenarios.silent_voice Scenarios.back_to_back_request r E)).
  - vm_compute in E. discriminate E.
Defined.

End ManagerFacts.

Module MixerExtraFacts.
Import Conv Mixer.
Open Scope Z_scope.

Lemma write_slot_length (buf : list Z) (k : nat) (v : Z) :
  length (write_slot buf k v) = length buf.
Proof.
  revert k. induction buf as [| h t IH]; intros k; simpl; [reflexivity |].
  destruct k; simpl; [reflexivity | rewrite IH; reflexivity].
Qed.

Lemma nth_write_slot_other (buf : list Z) (k j : nat) (v d : Z) :
  k <> j -> nth k (write_slot buf j v) d = nth k buf d.
Proof.
  revert k j. induction buf as [| h t IH]; intros k j Hne; simpl; [reflexivity |].
  destruct j, k; simpl; try reflexivity; [lia | apply IH; lia].
Qed.

Lemma mix_frame_length (seg mix : list Z) (s i : nat) (vol : Q) :
  length (mix_frame seg mix s i vol) = length mix.
Proof. unfold mix_frame, channels. simpl. rewrite !write_slot_length. reflexivity. Qed.

Lemma mix_frame_nth_outside (seg mix : list Z) (s i k : nat) (vol : Q) :
  (k < (s + i) * channels \/ (s + i + 1) * channels <= k)%nat ->
  nth k (mix_frame seg mix s i vol) 0 = nth k mix 0.
Proof.
  unfold mix_frame, channels. intros Hk. simpl.
  rewrite !nth_write_slot_other by lia. reflexivity.
Qed.

Lemma fold_frames_spec (seg : list Z) (s : nat) (vol : Q) (is : list nat) :
  forall mix,
  length (fold_left (fun m i => mix_frame seg m s i vol) is mix) = length mix /\
  (forall k, (forall i, In i is -> k < (s + i) * channels \/ (s + i + 1) * channels <= k)%nat ->
     nth k (fold_left (fun m i => mix_frame seg m s i vol) is mix) 0 = nth k mix 0).
Proof.
  induction is as [| i is IH]; intros mix; simpl; [split; auto |].
  destruct (IH (mix_frame seg mix s i vol)) as [Hl Hn]. split.
  - rewrite Hl, mix_frame_length. reflexivity.
  - intros k Hk. rewrite Hn by (intros j Hj; apply Hk; right; exact Hj).
    apply mix_frame_nth_outside. apply Hk. left. reflexivity.
Qed.

Lemma mixAudioSegmentIntoBuffer_length_eq (seg mix mix' : list Z) (s : Z) (vol : Q) :
  mixAudioSegmentIntoBuffer seg mix s vol = Ok mix' -> length mix' = length mix.
Proof.
  unfold mixAudioSegmentIntoBuffer. intros H. destruct (s <? 0).
  - destruct (0 <? _)%nat; [discriminate | injection H as <-; reflexivity].
  - injection H as <-. apply fold_frames_spec.
Qed.

Lemma mix_segments_length (evs : list TimelineEvent) (segs : list AudioSegment) :
  forall mix mix', mix_segments evs segs mix = Ok mix' -> length mix' = length mix.
Proof.
  induction segs as [| sg segs IH]; intros mix mix' H; simpl in H.
  - injection H as <-. reflexivity.
  - destruct (mixAudioSegmentIntoBuffer _ _ _ _) as [m1 |] eqn:E; [| discriminate].
    rewrite (IH m1 mix' H). exact (mixAudioSegmentIntoBuffer_length_eq _ _ _ _ _ E).
Qed.

Lemma mix_tracks_length (tl : ConversationTimeline) (tracks : list AudioTrackResult) :
  forall mix mix', mix_tracks tracks tl mix = Ok mix' -> length mix' = length mix.
Proof.
  induction tracks as [| tr tracks IH]; intros mix mix' H; simpl in H.
  - injection H as <-. reflexivity.
  - destruct (mixTrackIntoBuffer tr tl mix) as [m1 |] eqn:E; [| discriminate].
    rewrite (IH m1 mix' H). exact (mix_segments_length _ _ _ _ E).
Qed.

Lemma visited_length (buf : list Z) : length (visited buf) = (frames buf * channels)%nat.
Proof.
  unfold visited, frames, channels. rewrite length_firstn.
  assert (2 * (length buf / 2) <= length buf)%nat by (apply Nat.Div0.mul_div_le; lia).
  lia.
Qed.

Lemma map_visited_length (f : Z -> Z) (buf : list Z) :
  length (map_visited f buf) = length buf.
Proof.
  unfold map_visited. rewrite length_app, length_map, repeat_length, visited_length.
  assert (frames buf * channels <= length buf)%nat.
  { rewrite <- visited_length. unfold visited. rewrite length_firstn. lia. }
  lia.
Qed.

Lemma frames_map_visited (f : Z -> Z) (buf : list Z) :
  frames (map_visited f buf) = frames buf.
Proof. unfold frames. rewrite map_visited_length. reflexivity. Qed.

Lemma visited_map_visited (f : Z -> Z) (buf : list Z) :
  visited (map_visited f buf) = map f (visited buf).
Proof.
  unfold visited at 1. rewrite frames_map_visited. unfold map_visited.
  rewrite firstn_app, length_map, visited_length, Nat.sub_diag. simpl.
  rewrite app_nil_r. apply firstn_all2. rewrite length_map, visited_length. lia.
Qed.

Lemma nth_map_visited (f : Z -> Z) (buf : list Z) (k : nat) :
  (k < frames buf * channels)%nat ->
  nth k (map_visited f buf) 0 = f (nth k buf 0).
Proof.
  intros Hk. unfold map_visited.
  rewrite app_nth1 by (rewrite length_map, visited_length; exact Hk).
  rewrite (nth_indep _ 0 (f 0)) by (rewrite length_map, visited_length; exact Hk).
  rewrite map_nth. unfold visited. rewrite nth_firstn.
  destruct (Nat.ltb_spec k (frames buf * channels)); [reflexivity | lia].
Qed.

Lemma map_visited_twice (f g : Z -> Z) (buf : list Z) :
  (forall x, In x (visited buf) -> g (f x) = f x) ->
  map_visited g (map_visited f buf) = map_visited f buf.
Proof.
  intros H. unfold map_visited at 1.
  rewrite visited_map_visited, frames_map_visited, map_visited_length, map_map.
  rewrite (map_ext_in _ _ _ H). reflexivity.
Qed.

Lemma mixConversation_parts (tracks : list AudioTrackResult) (tl : ConversationTimeline)
  (options : MixingOptions) (master : list Z) :
  mixConversation tracks tl options = Ok master ->
  (0 <= Qceiling (conv_totalDuration tl / 1000 * sampleRate)) /\
  exists mixed,
    mix_tracks tracks tl
      (repeat 0 (Z.to_nat (Qceiling (conv_totalDuration tl / 1000 * sampleRate)) * channels))
      = Ok mixed /\
    master =
      (let b1 := if normalizeAudio_opt options then normalizeAudio mixed else mixed in
       let b2 := if Qlt_le_dec 0 (compressionLevel options)
                 then applyCompression b1 (compressionLevel options) else b1 in
       if spatialAudioEnabled options then applySpatialAudio b2 else b2).
Proof.
  unfold mixConversation. intros H.
  destruct tracks as [| t0 ts]; [discriminate |].
  destruct (Z.ltb_spec (Qceiling (conv_totalDuration tl / 1000 * sampleRate)) 0);
    [discriminate |].
  split; [lia |].
  destruct (mix_tracks _ tl _) as [mixed |] eqn:E; [| discriminate].
  exists mixed. split; [reflexivity |]. simpl in H. injection H as <-. reflexivity.
Qed.

(** [mixConversation] allocates [ceil(totalDuration / 1000 * 44100)]
    stereo frames and every later step keeps the buffer length: a
    successful mix has exactly that many frames (two 16-bit slots each),
    whatever the tracks and the mixing options; audio that would run past
    the end of the timeline is cut. *)
Theorem mixConversation_length (tracks : list AudioTrackResult)
  (tl : ConversationTimeline) (options : MixingOptions) (master : list Z) :
  mixConversation tracks tl options = Ok master ->
  (0 <= Qceiling (conv_totalDuration tl / 1000 * sampleRate)) /\
  length master =
    (Z.to_nat (Qceiling (conv_totalDuration tl / 1000 * sampleRate)) * channels)%nat.
Proof.
  intros H. destruct (mixConversation_parts _ _ _ _ H) as [Hc [mixed [Hm ->]]].
  split; [exact Hc |].
  apply mix_tracks_length in Hm. rewrite repeat_length in Hm.
  assert (H1 : length (if normalizeAudio_opt options then normalizeAudio mixed else mixed)
               = length mixed).
  { destruct (normalizeAudio_opt options); [| reflexivity].
    unfold normalizeAudio. destruct (peak mixed =? 0); [reflexivity |].
    apply map_visited_length. }
  cbv zeta. destruct (spatialAudioEnabled options); unfold applySpatialAudio;
    destruct (Qlt_le_dec 0 (compressionLevel options));
    unfold applyCompression; rewrite ?map_visited_length; rewrite H1; exact Hm.
Qed.

Lemma mixConversation_length_witness :
  mixConversation Scenarios.two_loud_tracks Scenarios.one_frame_timeline
    Scenarios.plain_mixing = Ok [32767; 32767] /\
  (0 <= Qceiling (conv_totalDuration Scenarios.one_frame_timeline / 1000 * sampleRate)) /\
  length [32767; 32767] =
    (Z.to_nat (Qceiling (conv_totalDuration Scenarios.one_frame_timeline / 1000
                           * sampleRate)) * channels)%nat.
Proof.
  split; [vm_compute; reflexivity |].
  apply (mixConversation_length Scenarios.two_loud_tracks Scenarios.one_frame_timeline
           Scenarios.plain_mixing [32767; 32767]).
  vm_compute; reflexivity.
Defined.

(** [mixAudioSegmentIntoBuffer] keeps the length of the mix buffer and
    writes only the frames [startSample .. startSample + frames(segment) - 1]:
    every slot outside that window is left as it was, and a segment that
    starts at or after the end of the buffer leaves the buffer unchanged
    (it is dropped without an error). *)
Theorem mixAudioSegmentIntoBuffer_local (seg mix mix' : list Z) (startSample : Z)
  (volume : Q) :
  mixAudioSegmentIntoBuffer seg mix startSample volume = Ok mix' ->
  length mix' = length mix /\
  ((frames mix <= Z.to_nat startSample)%nat -> mix' = mix) /\
  (forall k, (k < Z.to_nat startSample * channels \/
              (Z.to_nat startSample + frames seg) * channels <= k)%nat ->
     nth k mix' 0 = nth k mix 0).
Proof.
  unfold mixAudioSegmentIntoBuffer. cbv zeta. intros H.
  destruct (startSample <? 0).
  - destruct (0 <? _)%nat; [discriminate |].
    injection H as <-. split; [reflexivity | split; intros; reflexivity].
  - injection H as <-.
    change (fst (Nat.divmod (length seg) 1 0 1)) with (length seg / channels)%nat.
    change (fst (Nat.divmod (length mix) 1 0 1)) with (length mix / channels)%nat.
    set (n := Nat.min (length seg / channels) (length mix / channels - Z.to_nat startSample)).
    destruct (fold_frames_spec seg (Z.to_nat startSample) volume (seq 0 n) mix) as [Hl Hn].
    split; [exact Hl | split].
    + intros Hf. unfold frames in Hf. assert (Hn0 : n = 0%nat) by (unfold n; lia).
      rewrite Hn0. reflexivity.
    + intros k Hk. apply Hn. intros i Hi. apply in_seq in Hi.
      unfold frames, channels in *. unfold n in Hi. lia.
Qed.

Lemma mixAudioSegmentIntoBuffer_local_witness :
  mixAudioSegmentIntoBuffer [1000; 1000] [0; 0; 0; 0; 0; 0] 1 1
    = Ok [0; 0; 1000; 1000; 0; 0] /\
  nth 4 [0; 0; 1000; 1000; 0; 0] 0 = nth 4 [0; 0; 0; 0; 0; 0] 0.
Proof.
  split; [vm_compute; reflexivity |].
  apply (proj2 (proj2 (mixAudioSegmentIntoBuffer_local [1000; 1000] [0; 0; 0; 0; 0; 0]
           [0; 0; 1000; 1000; 0; 0] 1 1 eq_refl)) 4%nat).
  right. vm_compute. lia.
Defined.

Lemma fold_max_bound (l : list Z) (a B : Z) :
  (forall x, In x l -> Z.abs x <= B) -> a <= B ->
  fold_left (fun p s => Z.max p (Z.abs s)) l a <= B.
Proof.
  revert a. induction l as [| y l IH]; intros a Hl Ha; simpl; [exact Ha |].
  apply IH; [intros x Hx; apply Hl; right; exact Hx |].
  specialize (Hl y (or_introl eq_refl)). lia.
Qed.

Lemma fold_max_attained (l : list Z) (a : Z) :
  fold_left (fun p s => Z.max p (Z.abs s)) l a = a \/
  exists x, In x l /\ Z.abs x = fold_left (fun p s => Z.max p (Z.abs s)) l a.
Proof.
  revert a. induction l as [| y l IH]; intros a; simpl; [left; reflexivity |].
  destruct (IH (Z.max a (Z.abs y))) as [E | [x [Hx E]]].
  - rewrite E. destruct (Z.max_spec a (Z.abs y)) as [[_ M] | [_ M]]; rewrite M.
    + right. exists y. split; [left; reflexivity | reflexivity].
    + left. reflexivity.
  - right. exists x. split; [right; exact Hx | exact E].
Qed.

Lemma floor_unique (z : Z) (q : Q) :
  (inject_Z z <= q)%Q -> (q < inject_Z z + 1)%Q -> Qfloor q = z.
Proof.
  intros H1 H2.
  assert (A : z <= Qfloor q). { rewrite <- (Qfloor_Z z). apply Qfloor_resp_le. exact H1. }
  assert (B : Qfloor q < z + 1).
  { rewrite Zlt_Qlt, inject_Z_plus. eapply Qle_lt_trans; [apply Qfloor_le | exact H2]. }
  lia.
Qed.

Lemma js_round_Z (z : Z) : js_round (inject_Z z) = z.
Proof.
  unfold js_round. apply floor_unique; lra.
Qed.

Lemma js_round_mono (q1 q2 : Q) : (q1 <= q2)%Q -> js_round q1 <= js_round q2.
Proof. intros H. unfold js_round. apply Qfloor_resp_le. lra. Qed.

(** A second normalization pass (factor [32767*0.95/31129]) leaves every
    sample of magnitude at most [31129] unchanged. *)
Lemma renormalize_fixed (y : Z) :
  -31129 <= y <= 31129 ->
  clamp16 (js_round (inject_Z y * normalizationFactor 31129)) = y.
Proof.
  intros Hy.
  assert (Hr : js_round (inject_Z y * normalizationFactor 31129) = y).
  { assert (E : (inject_Z y * normalizationFactor 31129 + (1 # 2)
                 == inject_Z y * (3112865 # 3112900) + (1 # 2))%Q).
    { setoid_replace (normalizationFactor 31129) with (3112865 # 3112900)%Q
        by reflexivity. reflexivity. }
    unfold js_round. rewrite (Qfloor_comp _ _ E). fold (js_round (inject_Z y * (3112865 # 3112900))).
    assert (Hlo : (inject_Z (-31129) <= inject_Z y)%Q) by (rewrite <- Zle_Qle; lia).
    assert (Hhi : (inject_Z y <= inject_Z 31129)%Q) by (rewrite <- Zle_Qle; lia).
    assert (E1 : (inject_Z (-31129) == -31129)%Q) by reflexivity.
    assert (E2 : (inject_Z 31129 == 31129)%Q) by reflexivity.
    unfold js_round. apply floor_unique; lra. }
  rewrite Hr. unfold clamp16. lia.
Qed.

(** The peak sample itself is normalized to [+-31129]. *)
Lemma normalize_peak_sample (p : Z) :
  0 < p ->
  clamp16 (js_round (inject_Z p * normalizationFactor p)) = 31129 /\
  clamp16 (js_round (inject_Z (- p) * normalizationFactor p)) = -31129.
Proof.
  intros Hp.
  assert (Hp' : ~ (inject_Z p == 0)%Q).
  { intros E. change 0%Q with (inject_Z 0) in E. rewrite inject_Z_injective in E. lia. }
  split.
  - assert (E : (inject_Z p * normalizationFactor p + (1 # 2) == maxValue + (1 # 2))%Q).
    { unfold normalizationFactor. field. exact Hp'. }
    unfold js_round. rewrite (Qfloor_comp _ _ E). vm_compute. reflexivity.
  - assert (E : (inject_Z (- p) * normalizationFactor p + (1 # 2) == - maxValue + (1 # 2))%Q).
    { unfold normalizationFactor. rewrite inject_Z_opp. field. exact Hp'. }
    unfold js_round. rewrite (Qfloor_comp _ _ E). vm_compute. reflexivity.
Qed.

(** [normalizeAudio] is idempotent: normalizing an already normalized
    buffer changes nothing. After one pass the peak is exactly [31129]
    (when it was not 0), and the second pass, with factor
    [32767*0.95/31129], moves no sample by half a unit or more. *)
Theorem normalizeAudio_idempotent (buf : list Z) :
  normalizeAudio (normalizeAudio buf) = normalizeAudio buf.
Proof.
  destruct (Z.eqb_spec (peak buf) 0) as [E | E].
  - assert (N : normalizeAudio buf = buf)
      by (unfold normalizeAudio; rewrite E; reflexivity).
    rewrite N. exact N.
  - assert (Hp : 0 < peak buf) by (pose proof (MixerFacts.peak_fold_ge (visited buf) 0); unfold peak in *; lia).
    set (f := fun sample => clamp16 (js_round (inject_Z sample * normalizationFactor (peak buf)))).
    assert (N : normalizeAudio buf = map_visited f buf).
    { unfold normalizeAudio. destruct (Z.eqb_spec (peak buf) 0); [lia | reflexivity]. }
    rewrite N.
    assert (Hf : forall x, In x (visited buf) -> -31129 <= f x <= 31129).
    { intros x Hx. pose proof (MixerFacts.visited_le_peak buf x Hx) as Hxp.
      pose proof (MixerFacts.round_scaled_bound x (peak buf) Hp Hxp). unfold f, clamp16. lia. }
    assert (Hpk : peak (map_visited f buf) = 31129).
    { unfold peak. rewrite visited_map_visited. apply Z.le_antisymm.
      - apply fold_max_bound; [| lia].
        intros y Hy. apply in_map_iff in Hy. destruct Hy as [x [<- Hx]].
        specialize (Hf x Hx). lia.
      - destruct (fold_max_attained (visited buf) 0) as [E0 | [x0 [Hx0 E0]]].
        + unfold peak in E. contradiction.
        + fold (peak buf) in E0.
          assert (Hfx : Z.abs (f x0) = 31129).
          { destruct (normalize_peak_sample (peak buf) Hp) as [P1 P2].
            destruct (Z.abs_spec x0) as [[_ A] | [_ A]]; rewrite A in E0.
            - unfold f. rewrite E0, P1. reflexivity.
            - unfold f. replace x0 with (- peak buf) by lia. rewrite P2. reflexivity. }
          rewrite <- Hfx. apply MixerFacts.peak_fold_in. apply in_map. exact Hx0. }
    unfold normalizeAudio at 1. rewrite Hpk. simpl.
    apply map_visited_twice. intros x Hx. apply renormalize_fixed. apply Hf, Hx.
Qed.

Lemma compressSample_bounds (L : Q) (s : Z) :
  (0 < L <= 1)%Q -> in_range16 s ->
  (0 <= s -> 0 <= compressSample L s <= s) /\
  (s <= 0 -> s <= compressSample L s <= 0) /\
  ((inject_Z (Z.abs s) <= 32767 * (1 - L))%Q -> compressSample L s = s).
Proof.
  intros [HL0 HL1] Hs. unfold in_range16 in Hs. unfold compressSample. cbv zeta.
  destruct (Qlt_le_dec (32767 * (1 - L)) (inject_Z (Z.abs s))) as [Hgt | Hle].
  - set (thr := (32767 * (1 - L))%Q) in *.
    set (r := (1 + L * 3)%Q).
    set (d := (inject_Z (Z.abs s) - thr)%Q).
    assert (Hthr : (0 <= thr)%Q) by (unfold thr; lra).
    assert (Hr : (1 < r)%Q) by (unfold r; lra).
    assert (Hd : (0 < d)%Q) by (unfold d; lra).
    assert (Hq0 : (0 <= d / r)%Q) by (apply Qle_shift_div_l; lra).
    assert (Hq1 : (d / r <= d)%Q) by (apply Qle_shift_div_r; [lra |];
      assert (0 <= d * (r - 1))%Q by (apply Qmult_le_0_compat; lra); lra).
    assert (Hz : js_round 0 = 0) by reflexivity.
    destruct (Z.leb_spec 0 s) as [Hs0 | Hs0].
    + assert (Ha : (inject_Z (Z.abs s) == inject_Z s)%Q)
        by (rewrite Z.abs_eq by lia; reflexivity).
      assert (Hv : (0 <= 1 * (thr + d / r) <= inject_Z s)%Q) by (unfold d in *; lra).
      pose proof (js_round_mono _ _ (proj1 Hv)) as A.
      pose proof (js_round_mono _ _ (proj2 Hv)) as B.
      rewrite js_round_Z in B. rewrite Hz in A.
      split; [intros _; unfold clamp16; lia | split].
      * intros Hs1. assert (s = 0) by lia. subst. unfold clamp16. lia.
      * intros Hle. lra.
    + assert (Ha : (inject_Z (Z.abs s) == - inject_Z s)%Q)
        by (rewrite Z.abs_neq by lia; rewrite inject_Z_opp; reflexivity).
      assert (Hv : (inject_Z s <= -1 * (thr + d / r) <= 0)%Q) by (unfold d in *; lra).
      pose proof (js_round_mono _ _ (proj1 Hv)) as A.
      pose proof (js_round_mono _ _ (proj2 Hv)) as B.
      rewrite js_round_Z in A. rewrite Hz in B.
      split; [intros; lia | split].
      * intros _. unfold clamp16. lia.
      * intros Hle. lra.
  - rewrite js_round_Z. unfold clamp16.
    split; [intros; lia | split; intros; lia].
Qed.

(** For a compression level in [(0, 1]] and 16-bit input, [applyCompression]
    keeps the buffer length and never amplifies a sample or flips its
    sign: each output sample lies between 0 and the input sample, and a
    sample whose magnitude does not exceed the threshold
    [32767 * (1 - level)] is left unchanged. *)
Theorem applyCompression_never_amplifies (buf : list Z) (compressionLevel : Q) :
  (0 < compressionLevel <= 1)%Q -> Forall in_range16 buf ->
  length (applyCompression buf compressionLevel) = length buf /\
  (forall k, (k < frames buf * channels)%nat ->
     (0 <= nth k buf 0 ->
        0 <= nth k (applyCompression buf compressionLevel) 0 <= nth k buf 0) /\
     (nth k buf 0 <= 0 ->
        nth k buf 0 <= nth k (applyCompression buf compressionLevel) 0 <= 0) /\
     ((inject_Z (Z.abs (nth k buf 0%Z)) <= 32767 * (1 - compressionLevel))%Q ->
        nth k (applyCompression buf compressionLevel) 0 = nth k buf 0)).
Proof.
  intros HL Hb. split; [apply map_visited_length |].
  intros k Hk. unfold applyCompression. rewrite nth_map_visited by exact Hk.
  apply compressSample_bounds; [exact HL |].
  rewrite Forall_nth in Hb. apply Hb.
  pose proof (visited_length buf) as V. unfold visited in V.
  rewrite length_firstn in V. lia.
Qed.

Lemma applyCompression_never_amplifies_witness :
  applyCompression [30000; -30000] (1 # 2) = [21830; -21830] /\
  (0 <= nth 0 [30000; -30000] 0 ->
     0 <= nth 0 (applyCompression [30000; -30000] (1 # 2)) 0 <= nth 0 [30000; -30000] 0).
Proof.
  split; [vm_compute; reflexivity |].
  refine (proj1 (proj2 (applyCompression_never_amplifies [30000; -30000] (1 # 2) _ _) 0%nat _)).
  - lra.
  - repeat constructor; unfold in_range16; lia.
  - vm_compute. lia.
Defined.

End MixerExtraFacts.

Module ManagerExtraFacts.
Import JsString Conv Manager UsageLookup ValidationParts.
Open Scope Q_scope.
Open Scope list_scope.

Lemma existsb_eqb_in (s : string) (l : list string) :
  existsb (String.eqb s) l = true <-> In s l.
Proof.
  rewrite existsb_exists. split.
  - intros [x [Hx E]]. apply String.eqb_eq in E. subst. exact Hx.
  - intros H. exists s. split; [exact H | apply String.eqb_refl].
Qed.

Lemma find_none_iff {A : Type} (f : A -> bool) (l : list A) :
  find f l = None <-> forall x, In x l -> f x = false.
Proof.
  split; [apply find_none |].
  induction l as [| y l IH]; intros H; simpl; [reflexivity |].
  rewrite (H y (or_introl eq_refl)). apply IH. intros x Hx. apply H. right. exact Hx.
Qed.

Lemma overlap_target_missing_none (lineIds : list string) (l : DialogueLine) :
  overlap_target_missing lineIds l = None <->
  (forall o t, overlap (timing l) = Some o -> ov_targetLineId o = Some t ->
     t <> EmptyString -> In t lineIds).
Proof.
  unfold overlap_target_missing.
  destruct (overlap (timing l)) as [o |].
  2: { split; [intros _ o t H; discriminate | reflexivity]. }
  split.
  - intros H o' t Ho Ht Hne. injection Ho as <-. rewrite Ht in H.
    destruct t as [| a t']; [contradiction |]. simpl in H.
    destruct (existsb _ lineIds) eqn:E; [| discriminate].
    apply existsb_eqb_in. exact E.
  - intros H. destruct (ov_targetLineId o) as [t |] eqn:Ht; [| reflexivity].
    destruct t as [| a t']; [reflexivity |].
    assert (Hin : In (String a t') lineIds) by (apply (H o); [reflexivity | exact Ht | discriminate]).
    apply existsb_eqb_in in Hin. simpl. simpl in Hin. rewrite Hin. reflexivity.
Qed.

Lemma validateConversationConfig_eq (cfg : ConversationConfig) :
  validateConversationConfig cfg =
  match characters cfg with
  | [] => Err "Conversation must have at least one character"
  | _ =>
  match dialogue cfg with
  | [] => Err "Conversation must have at least one dialogue line"
  | _ =>
    match find (fun l => negb (existsb (String.eqb (characterId l))
                                  (map char_id (characters cfg))))
               (dialogue cfg) with
    | Some l => Err ("Dialogue line references unknown character: " ++ characterId l)%string
    | None =>
      match find (fun l => match overlap_target_missing (map line_id (dialogue cfg)) l with
                           | Some _ => true | None => false end)
                 (dialogue cfg) with
      | Some l =>
          match overlap_target_missing (map line_id (dialogue cfg)) l with
          | Some t => Err ("Overlap target line not found: " ++ t)%string
          | None => Ok tt
          end
      | None => Ok tt
      end
    end
  end
  end.
Proof. reflexivity. Qed.

(** [validateConversationConfig] accepts a configuration exactly when it
    has at least one character and one dialogue line, every line's
    [characterId] is the id of a character, and every non-empty overlap
    [targetLineId] is the id of a dialogue line (whether or not the
    overlap is enabled). *)
Theorem validateConversationConfig_ok (cfg : ConversationConfig) :
  validateConversationConfig cfg = Ok tt <->
  characters cfg <> [] /\ dialogue cfg <> [] /\
  (forall l, In l (dialogue cfg) -> In (characterId l) (map char_id (characters cfg))) /\
  (forall l o t, In l (dialogue cfg) -> overlap (timing l) = Some o ->
     ov_targetLineId o = Some t -> t <> EmptyString ->
     In t (map line_id (dialogue cfg))).
Proof.
  rewrite validateConversationConfig_eq.
  destruct (characters cfg) as [| c cs] eqn:Ec.
  { split; [discriminate | intros [H _]; contradiction]. }
  destruct (dialogue cfg) as [| d ds] eqn:Ed.
  { split; [discriminate | intros [_ [H _]]; contradiction]. }
  assert (Hc : c :: cs <> []) by discriminate.
  assert (Hd : d :: ds <> []) by discriminate.
  revert Hc Hd. generalize (c :: cs) as C. generalize (d :: ds) as D. intros D C Hc Hd.
  destruct (find (fun l => negb (existsb (String.eqb (characterId l)) (map char_id C))) D)
    as [l |] eqn:E1.
  - split; [discriminate |]. intros [_ [_ [H1 _]]].
    apply find_some in E1. destruct E1 as [Hl E1].
    apply H1, existsb_eqb_in in Hl. rewrite Hl in E1. discriminate.
  - assert (Hch : forall l, In l D -> In (characterId l) (map char_id C)).
    { intros l Hl. rewrite find_none_iff in E1. specialize (E1 l Hl).
      apply existsb_eqb_in. destruct (existsb _ _); [reflexivity | discriminate]. }
    destruct (find (fun l => match overlap_target_missing (map line_id D) l with
                             | Some _ => true | None => false end) D) as [l |] eqn:E2.
    + apply find_some in E2. destruct E2 as [Hl E2].
      destruct (overlap_target_missing (map line_id D) l) as [t |] eqn:Eo; [| discriminate].
      split; [discriminate |]. intros [_ [_ [_ H2]]].
      assert (Hn : overlap_target_missing (map line_id D) l = None)
        by (apply overlap_target_missing_none; intros o t' Ho Ht Hne; exact (H2 l o t' Hl Ho Ht Hne)).
      congruence.
    + split; [intros _ | intros _; reflexivity].
      split; [exact Hc | split; [exact Hd | split; [exact Hch |]]].
      intros l o t Hl Ho Ht Hne. rewrite find_none_iff in E2. specialize (E2 l Hl).
      destruct (overlap_target_missing (map line_id D) l) eqn:Eo; [discriminate |].
      exact (proj1 (overlap_target_missing_none _ _) Eo o t Ho Ht Hne).
Qed.

Lemma timing_step_fields (g : ConversationGlobalSettings) (i : nat)
  (before after : list DialogueLine) (line : DialogueLine) (cur : Q) :
  let l' := fst (timing_step g i before after line cur) in
  line_id l' = line_id line /\ characterId l' = characterId line /\
  text l' = text line /\ emotionTransitions l' = emotionTransitions line /\
  pauseAfter (timing l') = pauseAfter (timing line) /\
  overlap (timing l') = overlap (timing line) /\
  speedModifier (timing l') = speedModifier (timing line) /\
  (exists e, endTime (timing l') = Some e) /\
  (exists p, pauseBefore (timing l') = Some p /\
     forall q, pauseBefore (timing line) = Some q -> p = q).
Proof.
  unfold timing_step. cbv zeta. simpl.
  repeat split; try reflexivity.
  - eexists. reflexivity.
  - eexists. split; [reflexivity |]. intros q Hq. rewrite Hq. reflexivity.
Qed.

Lemma timing_loop_fields (g : ConversationGlobalSettings) (D : list DialogueLine) :
  forall i before cur, exists mid,
  timing_loop g i before D cur = before ++ mid /\
  Forall2 (fun l l' =>
     line_id l' = line_id l /\ characterId l' = characterId l /\
     text l' = text l /\ emotionTransitions l' = emotionTransitions l /\
     pauseAfter (timing l') = pauseAfter (timing l) /\
     overlap (timing l') = overlap (timing l) /\
     speedModifier (timing l') = speedModifier (timing l) /\
     (exists e, endTime (timing l') = Some e) /\
     (exists p, pauseBefore (timing l') = Some p /\
        forall q, pauseBefore (timing l) = Some q -> p = q)) D mid.
Proof.
  induction D as [| line D IH]; intros i before cur; cbn [timing_loop].
  - exists []. split; [rewrite app_nil_r; reflexivity | constructor].
  - pose proof (timing_step_fields g i before D line cur) as Hs.
    destruct (timing_step g i before D line cur) as [line' cur'] eqn:E. simpl in Hs.
    destruct (IH (S i) (before ++ [line']) cur') as [mid [Hm HF]].
    exists (line' :: mid). cbv beta iota. split.
    + rewrite Hm, <- app_assoc. reflexivity.
    + constructor; [exact Hs | exact HF].
Qed.

(** [processDialogueTiming] returns one line per input line, in the same
    order, and changes only the timing it computes: id, character, text,
    emotion transitions, [pauseAfter], [overlap] and [speedModifier] are
    kept, every output line has an [endTime], and every output line has a
    [pauseBefore], equal to the input's when the input had one. *)
Theorem processDialogueTiming_keeps_lines (D : list DialogueLine)
  (g : ConversationGlobalSettings) :
  Forall2 (fun l l' =>
     line_id l' = line_id l /\ characterId l' = characterId l /\
     text l' = text l /\ emotionTransitions l' = emotionTransitions l /\
     pauseAfter (timing l') = pauseAfter (timing l) /\
     overlap (timing l') = overlap (timing l) /\
     speedModifier (timing l') = speedModifier (timing l) /\
     (exists e, endTime (timing l') = Some e) /\
     (exists p, pauseBefore (timing l') = Some p /\
        forall q, pauseBefore (timing l) = Some q -> p = q))
    D (processDialogueTiming D g).
Proof.
  unfold processDialogueTiming.
  destruct (timing_loop_fields g D 0 [] 0) as [mid [-> HF]]. exact HF.
Qed.

Lemma insert_by_perm {A : Type} (time : A -> Q) (x : A) (l : list A) :
  Permutation (JsSort.insert_by time x l) (x :: l).
Proof.
  induction l as [| y l IH]; simpl; [reflexivity |].
  destruct (Qle_bool (time x) (time y)); [reflexivity |].
  rewrite IH. apply perm_swap.
Qed.

Lemma sort_by_perm {A : Type} (time : A -> Q) (l : list A) :
  Permutation (JsSort.sort_by time l) l.
Proof.
  induction l as [| x l IH]; simpl; [reflexivity |].
  rewrite insert_by_perm, IH. reflexivity.
Qed.

Lemma Qmax_cases (a b : Q) : Qmax a b = a \/ Qmax a b = b.
Proof. unfold Qmax, GenericMinMax.gmax. destruct (a ?= b); auto. Qed.

Section TimelineFold.

(** The loop body of [createConversationTimeline], as a function on the
    pair (total duration, usage). *)
Variable step : Q * list (string * UsageValue) -> DialogueLine -> Q * list (string * UsageValue).
Hypothesis step_eq : forall t u l,
  step (t, u) l = (Qmax t (endTime_or_default l),
                   add_usage u (characterId l) (endTime_or_default l - startTime (timing l))).

Lemma fold_total (D : list DialogueLine) : forall t u,
  fst (fold_left step D (t, u)) = fold_left (fun t l => Qmax t (endTime_or_default l)) D t.
Proof.
  induction D as [| l D IH]; intros t u; simpl; [reflexivity |].
  rewrite step_eq. apply IH.
Qed.

Lemma fold_max_props (D : list DialogueLine) : forall t,
  let m := fold_left (fun t l => Qmax t (endTime_or_default l)) D t in
  t <= m /\ (forall l, In l D -> endTime_or_default l <= m) /\
  (m = t \/ exists l, In l D /\ m = endTime_or_default l).
Proof.
  induction D as [| l D IH]; intros t; simpl.
  - split; [apply Qle_refl | split; [intros _ [] | left; reflexivity]].
  - destruct (IH (Qmax t (endTime_or_default l))) as [H1 [H2 H3]].
    split; [| split].
    + eapply Qle_trans; [apply Q.le_max_l | exact H1].
    + intros l' [<- | Hl'].
      * eapply Qle_trans; [apply Q.le_max_r | exact H1].
      * apply H2, Hl'.
    + destruct H3 as [E | [l' [Hl' E]]].
      * rewrite E. destruct (Qmax_cases t (endTime_or_default l)) as [M | M]; rewrite M.
        -- left. reflexivity.
        -- right. exists l. split; [left; reflexivity | reflexivity].
      * right. exists l'. split; [right; exact Hl' | exact E].
Qed.

End TimelineFold.

(** [createConversationTimeline]: the total duration is the largest line
    end ([endTime], or [startTime + 3000] when it is missing or 0), and 0
    for an empty dialogue or when every line ends before 0; the event list
    is a reordering of the events pushed for the lines, none lost or
    added. *)
Theorem createConversationTimeline_total_events (D : list DialogueLine) :
  0 <= conv_totalDuration (createConversationTimeline D) /\
  (forall l, In l D -> endTime_or_default l <= conv_totalDuration (createConversationTimeline D)) /\
  (conv_totalDuration (createConversationTimeline D) = 0 \/
   exists l, In l D /\ conv_totalDuration (createConversationTimeline D) = endTime_or_default l) /\
  Permutation (events (createConversationTimeline D)) (flat_map line_events D).
Proof.
  unfold createConversationTimeline.
  match goal with |- context [fold_left ?f D (0, [])] =>
    pose proof (fold_total f (fun t u l => eq_refl) D 0 []) as Ht;
    destruct (fold_left f D (0, [])) as [total usage] eqn:E end.
  simpl in Ht. cbn [conv_totalDuration events].
  destruct (fold_max_props D 0) as [H1 [H2 H3]]. rewrite <- Ht in H1, H2, H3.
  split; [exact H1 | split; [exact H2 | split; [exact H3 |]]].
  apply sort_by_perm.
Qed.

Lemma own_set_own (u : list (string * UsageValue)) (id k : string) (v : UsageValue) :
  own_usage (set_own u id v) k = if String.eqb id k then Some v else own_usage u k.
Proof.
  induction u as [| [k' w] u IH]; cbn [set_own own_usage].
  - destruct (String.eqb id k); reflexivity.
  - destruct (String.eqb_spec k' id) as [-> | Hne]; cbn [own_usage].
    + destruct (String.eqb id k); reflexivity.
    + destruct (String.eqb_spec k' k) as [-> | Hne'].
      * destruct (String.eqb_spec id k) as [-> | _]; [contradiction | reflexivity].
      * exact IH.
Qed.

Lemma set_own_keys (u : list (string * UsageValue)) (id : string) (v : UsageValue) (x : string) :
  In x (map fst (set_own u id v)) <-> x = id \/ In x (map fst u).
Proof.
  induction u as [| [k w] u IH]; cbn [set_own map fst In].
  - split; [intros [<- | []]; left; reflexivity | intros [<- | []]; left; reflexivity].
  - destruct (String.eqb_spec k id) as [-> | Hne]; cbn [map fst In].
    + split; [intros [<- | H]; [right; left; reflexivity | right; right; exact H] |].
      intros [<- | [<- | H]]; [left | left | right]; auto.
    + rewrite IH. tauto.
Qed.

Lemma set_own_nodup (u : list (string * UsageValue)) (id : string) (v : UsageValue) :
  NoDup (map fst u) -> NoDup (map fst (set_own u id v)).
Proof.
  induction u as [| [k w] u IH]; cbn [set_own map fst]; intros H.
  - constructor; [intros [] | constructor].
  - inversion H as [| ? ? Hk Hu]; subst.
    destruct (String.eqb_spec k id) as [-> | Hne]; cbn [map fst].
    + constructor; assumption.
    + constructor; [| apply IH, Hu].
      rewrite set_own_keys. intros [E | E]; [congruence | contradiction].
Qed.

Lemma add_usage_nodup (u : list (string * UsageValue)) (id : string) (d : Q) :
  NoDup (map fst u) -> NoDup (map fst (add_usage u id d)).
Proof.
  intros H. unfold add_usage. destruct (String.eqb id "__proto__"); [exact H |].
  apply set_own_nodup, H.
Qed.

Lemma prototype_name_spec (id : string) :
  existsb (String.eqb id) object_prototype_names = true <-> In id object_prototype_names.
Proof.
  rewrite existsb_exists. split.
  - intros [x [Hx E]]. apply String.eqb_eq in E. subst x. exact Hx.
  - intros H. exists id. split; [exact H | apply String.eqb_refl].
Qed.

Lemma proto_is_prototype_name : In "__proto__"%string object_prototype_names.
Proof. apply prototype_name_spec. reflexivity. Qed.

Lemma sum_app (xs ys : list Q) :
  fold_right Qplus 0 (xs ++ ys) == fold_right Qplus 0 xs + fold_right Qplus 0 ys.
Proof.
  induction xs as [| x xs IH]; simpl; [ring |]. rewrite IH. ring.
Qed.

Lemma speaking_time_snoc (P : list DialogueLine) (l : DialogueLine) (k : string) :
  speaking_time (P ++ [l]) k ==
  speaking_time P k + (if String.eqb (characterId l) k then line_duration l else 0).
Proof.
  unfold speaking_time. rewrite filter_app, map_app, sum_app. simpl.
  destruct (String.eqb (characterId l) k); simpl; ring.
Qed.

Lemma speaking_time_absent (P : list DialogueLine) (k : string) :
  (forall l, In l P -> characterId l <> k) -> speaking_time P k = 0.
Proof.
  unfold speaking_time. induction P as [| l P IH]; intros H; simpl; [reflexivity |].
  destruct (String.eqb_spec (characterId l) k) as [E | _].
  - exfalso. exact (H l (or_introl eq_refl) E).
  - apply IH. intros l' Hl'. apply H. right. exact Hl'.
Qed.

Lemma or_default_some (v : Q) : or_default (Some v) 0 == v.
Proof.
  unfold or_default, truthy. destruct (Qeq_bool v 0) eqn:E; [| reflexivity].
  symmetry. apply Qeq_bool_iff. exact E.
Qed.

(** The entry of key [k] after the lines [P]: none for [__proto__] or a
    key no line has; a string for another member of [Object.prototype];
    otherwise the speaking time. *)
Lemma usage_entry_extend (P : list DialogueLine) (l : DialogueLine) (k : string)
  (o : option UsageValue) :
  characterId l <> k ->
  match o with
  | None => k = "__proto__"%string \/ (forall l', In l' P -> characterId l' <> k)
  | Some UText => k <> "__proto__"%string /\ In k object_prototype_names /\
                  exists l', In l' P /\ characterId l' = k
  | Some (UNum q) => ~ In k object_prototype_names /\ q == speaking_time P k /\
                     exists l', In l' P /\ characterId l' = k
  end ->
  match o with
  | None => k = "__proto__"%string \/ (forall l', In l' (P ++ [l]) -> characterId l' <> k)
  | Some UText => k <> "__proto__"%string /\ In k object_prototype_names /\
                  exists l', In l' (P ++ [l]) /\ characterId l' = k
  | Some (UNum q) => ~ In k object_prototype_names /\ q == speaking_time (P ++ [l]) k /\
                     exists l', In l' (P ++ [l]) /\ characterId l' = k
  end.
Proof.
  intros Hne Ho.
  assert (Hex : (exists l', In l' P /\ characterId l' = k) ->
                exists l', In l' (P ++ [l]) /\ characterId l' = k).
  { intros [l' [Hl' E]]. exists l'. split; [apply in_or_app; left; exact Hl' | exact E]. }
  destruct o as [[q |] |].
  - destruct Ho as [Hn [Hq Hl]]. split; [exact Hn | split; [| apply Hex, Hl]].
    rewrite speaking_time_snoc. destruct (String.eqb_spec (characterId l) k); [contradiction |].
    rewrite Hq. ring.
  - destruct Ho as [Hp [Hn Hl]]. split; [exact Hp | split; [exact Hn | apply Hex, Hl]].
  - destruct Ho as [Ho | Ho]; [left; exact Ho | right].
    intros l' Hl'. apply in_app_or in Hl'.
    destruct Hl' as [Hl' | [<- | []]]; [apply Ho, Hl' | exact Hne].
Qed.

Section UsageFold.

Variable step : Q * list (string * UsageValue) -> DialogueLine -> Q * list (string * UsageValue).
Hypothesis step_eq : forall t u l,
  step (t, u) l = (Qmax t (endTime_or_default l),
                   add_usage u (characterId l) (endTime_or_default l - startTime (timing l))).

Lemma fold_usage (D : list DialogueLine) : forall P t u,
  NoDup (map fst u) ->
  (forall k, match own_usage u k with
   | None => k = "__proto__"%string \/ (forall l', In l' P -> characterId l' <> k)
   | Some UText => k <> "__proto__"%string /\ In k object_prototype_names /\
                   exists l', In l' P /\ characterId l' = k
   | Some (UNum q) => ~ In k object_prototype_names /\ q == speaking_time P k /\
                      exists l', In l' P /\ characterId l' = k
   end) ->
  NoDup (map fst (snd (fold_left step D (t, u)))) /\
  (forall k, match own_usage (snd (fold_left step D (t, u))) k with
   | None => k = "__proto__"%string \/ (forall l', In l' (P ++ D) -> characterId l' <> k)
   | Some UText => k <> "__proto__"%string /\ In k object_prototype_names /\
                   exists l', In l' (P ++ D) /\ characterId l' = k
   | Some (UNum q) => ~ In k object_prototype_names /\ q == speaking_time (P ++ D) k /\
                      exists l', In l' (P ++ D) /\ characterId l' = k
   end).
Proof.
  induction D as [| l D IH]; intros P t u Hn Hu; cbn [fold_left].
  - rewrite app_nil_r. split; assumption.
  - rewrite step_eq.
    replace (P ++ l :: D) with ((P ++ [l]) ++ D) by (rewrite <- app_assoc; reflexivity).
    apply IH; [apply add_usage_nodup, Hn |].
    intros k. unfold add_usage.
    destruct (String.eqb_spec (characterId l) "__proto__") as [Ep | Ep].
    + destruct (String.eqb_spec (characterId l) k) as [Ek | Ek].
      * subst k. specialize (Hu (characterId l)). rewrite Ep in Hu |- *.
        destruct (own_usage u "__proto__") as [[q |] |].
        -- exfalso. apply (proj1 Hu). apply proto_is_prototype_name.
        -- exfalso. apply (proj1 Hu). reflexivity.
        -- left. reflexivity.
      * apply usage_entry_extend; [exact Ek | apply Hu].
    + rewrite own_set_own.
      assert (Hl : exists l', In l' (P ++ [l]) /\ characterId l' = characterId l)
        by (exists l; split; [apply in_or_app; right; left; reflexivity | reflexivity]).
      destruct (String.eqb_spec (characterId l) k) as [<- | Ek].
      * specialize (Hu (characterId l)). unfold usage_plus.
        destruct (own_usage u (characterId l)) as [[q |] |].
        -- destruct Hu as [Hn' [Hq _]]. split; [exact Hn' | split; [| exact Hl]].
           rewrite speaking_time_snoc, String.eqb_refl, or_default_some, Hq.
           unfold line_duration. reflexivity.
        -- destruct Hu as [_ [Hn' _]]. split; [exact Ep | split; [exact Hn' | exact Hl]].
        -- destruct Hu as [Hu | Hu]; [contradiction |].
           destruct (existsb (String.eqb (characterId l)) object_prototype_names) eqn:Eb.
           ++ apply prototype_name_spec in Eb.
              split; [exact Ep | split; [exact Eb | exact Hl]].
           ++ split; [intros Hin; apply prototype_name_spec in Hin; congruence |].
              split; [| exact Hl].
              rewrite speaking_time_snoc, String.eqb_refl, speaking_time_absent by exact Hu.
              unfold line_duration. ring.
      * apply usage_entry_extend; [exact Ek | apply Hu].
Qed.

End UsageFold.

(** [characterUsage] of [createConversationTimeline] is a plain object
    with distinct keys. A character id that is not a member of
    [Object.prototype] has an entry exactly when some line has it as
    [characterId], and the entry is the number summing [end - startTime]
    over that character's lines (with [end] the line's [endTime], or
    [startTime + 3000] when missing or 0). The id [__proto__] never has an
    entry (the assignment goes to the prototype setter, which ignores it),
    and another member of [Object.prototype] used by a line, such as
    [toString], gets a string. *)
Theorem createConversationTimeline_usage (D : list DialogueLine) (id : string) :
  NoDup (map fst (characterUsage (createConversationTimeline D))) /\
  match own_usage (characterUsage (createConversationTimeline D)) id with
  | None => id = "__proto__"%string \/ (forall l, In l D -> characterId l <> id)
  | Some UText => id <> "__proto__"%string /\ In id object_prototype_names /\
                  exists l, In l D /\ characterId l = id
  | Some (UNum q) => ~ In id object_prototype_names /\ q == speaking_time D id /\
                     exists l, In l D /\ characterId l = id
  end.
Proof.
  unfold createConversationTimeline.
  match goal with |- context [fold_left ?f D (0, [])] =>
    pose proof (fold_usage f (fun t u l => eq_refl) D [] 0 [] (NoDup_nil _)
                  ltac:(intros k; right; intros l [])) as Hu;
    destruct (fold_left f D (0, [])) as [total usage] eqn:E end.
  cbn [snd app] in Hu. cbn [characterUsage]. destruct Hu as [Hn Hk]. split; [exact Hn | apply Hk].
Qed.

(** Lines of ids [toString] and [__proto__]: the first gets a string
    entry, the second none. *)
Lemma createConversationTimeline_prototype_ids :
  characterUsage (createConversationTimeline
    [Scenarios.plain_line "L1" "toString" "Hi";
     Scenarios.plain_line "L2" "__proto__" "Hi";
     Scenarios.plain_line "L3" "A" "Hi"])
  = [("toString"%string, UText); ("A"%string, UNum 3000)].
Proof. vm_compute. reflexivity. Qed.

Lemma generateConversation_parts
  (initializeCharacters : list ConversationCharacter -> Result unit)
  (generateVoice : ConversationCharacter -> DialogueLine -> Result (list Z))
  (request : ConversationGenerationRequest) (r : ConversationResult) :
  generateConversation initializeCharacters generateVoice request = Ok r ->
  validateConversationConfig (config request) = Ok tt /\
  generateCharacterAudioTracks generateVoice
    (processDialogueTiming (dialogue (config request)) (globalSettings (config request)))
    (characters (config request)) = Ok (audioTracks r).
Proof.
  unfold generateConversation.
  destruct (validateConversationConfig _) as [[] |]; [| discriminate]. cbn [bind].
  destruct (initializeCharacters _); [| discriminate]. cbn [bind].
  destruct (generateCharacterAudioTracks _ _ _); [| discriminate]. cbn [bind].
  destruct (mixingOptions request) as [opts |].
  - destruct (enableAutomaticMixing opts).
    + destruct (Mixer.mixConversation _ _ _); [| discriminate].
      simpl. intros H; inversion H; auto.
    + intros H; inversion H; auto.
  - intros H; inversion H; auto.
Qed.

(** A rejected voice-engine call rejects the whole generation. *)
Lemma generateConversation_voice_failure :
  generateConversation Scenarios.init_ok (fun _ _ => Err "provider unavailable")
    Scenarios.back_to_back_request = Err "provider unavailable".
Proof. vm_compute. reflexivity. Qed.

Lemma validate_ok_characters (cfg : ConversationConfig) :
  validateConversationConfig cfg = Ok tt ->
  forall l, In l (dialogue cfg) -> In (characterId l) (map char_id (characters cfg)).
Proof.
  rewrite validateConversationConfig_eq.
  destruct (characters cfg) as [| c cs]; [discriminate |].
  destruct (dialogue cfg) as [| d ds]; [discriminate |].
  destruct (find _ (d :: ds)) as [l |] eqn:E1; [discriminate |].
  intros _ l Hl. rewrite find_none_iff in E1. specialize (E1 l Hl).
  apply existsb_eqb_in. destruct (existsb _ _); [reflexivity | discriminate].
Qed.

Lemma processDialogueTiming_characterIds (D : list DialogueLine)
  (g : ConversationGlobalSettings) :
  map characterId (processDialogueTiming D g) = map characterId D.
Proof.
  unfold processDialogueTiming.
  destruct (timing_loop_fields g D 0 [] 0) as [mid [-> HF]]. simpl.
  induction HF as [| l l' D mid [_ [Hc _]] _ IH]; [reflexivity |].
  simpl. rewrite Hc, IH. reflexivity.
Qed.

Lemma existsb_characterId (D : list DialogueLine) (y : string) :
  existsb (fun l => String.eqb (characterId l) y) D =
  existsb (fun s => String.eqb s y) (map characterId D).
Proof. induction D as [| l D IH]; simpl; [reflexivity | rewrite IH; reflexivity]. Qed.

Lemma existsb_filter {A : Type} (p : A -> bool) (l : list A) :
  existsb p l = match filter p l with [] => false | _ => true end.
Proof.
  induction l as [| x l IH]; simpl; [reflexivity |].
  destruct (p x); [reflexivity | exact IH].
Qed.

Lemma flat_map_cons_eq {A B : Type} (f : A -> list B) (x : A) (l : list A) :
  flat_map f (x :: l) = f x ++ flat_map f l.
Proof. reflexivity. Qed.

Lemma filter_cons_eq {A : Type} (p : A -> bool) (x : A) (l : list A) :
  filter p (x :: l) = if p x then x :: filter p l else filter p l.
Proof. reflexivity. Qed.

Lemma line_segments_length
  (generateVoice : ConversationCharacter -> DialogueLine -> Result (list Z))
  (c : ConversationCharacter) (lines : list DialogueLine) :
  forall segs, line_segments generateVoice c lines = Ok segs -> length segs = length lines.
Proof.
  induction lines as [| l lines IH]; intros segs H; cbn [line_segments] in H.
  - injection H as <-. reflexivity.
  - destruct (generateVoice c l); [| discriminate]. cbn [bind] in H.
    destruct (line_segments generateVoice c lines) as [segs' |] eqn:E; [| discriminate].
    cbn [bind] in H. injection H as <-. cbn [length]. rewrite (IH segs' eq_refl). reflexivity.
Qed.

Lemma generateCharacterAudioTracks_shape
  (generateVoice : ConversationCharacter -> DialogueLine -> Result (list Z))
  (D : list DialogueLine) (chars : list ConversationCharacter) :
  forall ts, generateCharacterAudioTracks generateVoice D chars = Ok ts ->
  map at_characterId ts =
    map char_id (filter (fun c => existsb (fun l => String.eqb (characterId l) (char_id c)) D)
                        chars) /\
  length (flat_map at_segments ts) =
    length (flat_map (fun c => filter (fun l => String.eqb (characterId l) (char_id c)) D)
                     chars).
Proof.
  induction chars as [| c chars IH]; intros ts H.
  - cbn [generateCharacterAudioTracks] in H. injection H as <-. split; reflexivity.
  - cbn [generateCharacterAudioTracks] in H. rewrite !flat_map_cons_eq.
    rewrite (filter_cons_eq (fun c => existsb _ D)).
    rewrite existsb_filter.
    destruct (filter (fun l => String.eqb (characterId l) (char_id c)) D) as [| l0 ls] eqn:F.
    + exact (IH ts H).
    + destruct (line_segments generateVoice c (l0 :: ls)) as [segs |] eqn:Es; [| discriminate].
      cbn [bind] in H.
      destruct (generateCharacterAudioTracks generateVoice D chars) as [ts' |]; [| discriminate].
      cbn [bind] in H. injection H as <-. destruct (IH ts' eq_refl) as [IH1 IH2].
      cbn [map filter]. rewrite IH1. split; [reflexivity |].
      rewrite flat_map_cons_eq. cbn [at_segments].
      rewrite length_app, (line_segments_length generateVoice c (l0 :: ls) segs Es), IH2,
        length_app. reflexivity.
Qed.

Lemma count_step (l : DialogueLine) (D : list DialogueLine) (chars : list ConversationCharacter) :
  length (flat_map (fun c => filter (fun l => String.eqb (characterId l) (char_id c)) (l :: D))
                   chars) =
  (length (flat_map (fun c => filter (fun l => String.eqb (characterId l) (char_id c)) D) chars)
   + length (filter (fun c => String.eqb (characterId l) (char_id c)) chars))%nat.
Proof.
  induction chars as [| c chars IH]; [reflexivity |].
  rewrite !flat_map_cons_eq.
  rewrite (filter_cons_eq (fun c0 => String.eqb (characterId l) (char_id c0))).
  rewrite !length_app, IH, (filter_cons_eq _ l D). cbv beta.
  destruct (String.eqb (characterId l) (char_id c)); simpl; lia.
Qed.

Lemma filter_id_absent (x : string) (chars : list ConversationCharacter) :
  ~ In x (map char_id chars) -> filter (fun c => String.eqb x (char_id c)) chars = [].
Proof.
  induction chars as [| c chars IH]; intros H; [reflexivity |]. simpl in H |- *.
  destruct (String.eqb_spec x (char_id c)) as [E | _]; [exfalso; apply H; left; auto |].
  apply IH. intros Hx. apply H. right. exact Hx.
Qed.

Lemma filter_id_unique (x : string) (chars : list ConversationCharacter) :
  NoDup (map char_id chars) -> In x (map char_id chars) ->
  length (filter (fun c => String.eqb x (char_id c)) chars) = 1%nat.
Proof.
  induction chars as [| c chars IH]; intros Hn Hx; [destruct Hx |].
  simpl in Hn, Hx |- *. inversion Hn as [| ? ? Hc Hn']; subst.
  destruct (String.eqb_spec x (char_id c)) as [-> | Hne].
  - simpl. rewrite filter_id_absent by exact Hc. reflexivity.
  - apply IH; [exact Hn' |]. destruct Hx as [E | E]; [congruence | exact E].
Qed.

Lemma count_lines_by_character (D : list DialogueLine) (chars : list ConversationCharacter) :
  NoDup (map char_id chars) ->
  (forall l, In l D -> In (characterId l) (map char_id chars)) ->
  length (flat_map (fun c => filter (fun l => String.eqb (characterId l) (char_id c)) D)
                   chars) = length D.
Proof.
  intros Hn. induction D as [| l D IH]; intros Hin.
  - induction chars as [| c chars IHc]; [reflexivity |]. simpl.
    apply IHc; [inversion Hn; assumption | intros l []].
  - rewrite count_step, IH by (intros l' Hl'; apply Hin; right; exact Hl').
    rewrite filter_id_unique by (auto; apply Hin; left; reflexivity).
    simpl. lia.
Qed.

(** A generated conversation has one audio track per character that has
    at least one dialogue line, in the order of the characters, and (when
    character ids are distinct) one audio segment per dialogue line in
    total: no line is dropped or voiced twice. *)
Theorem generateConversation_tracks
  (initializeCharacters : list ConversationCharacter -> Result unit)
  (generateVoice : ConversationCharacter -> DialogueLine -> Result (list Z))
  (request : ConversationGenerationRequest) (r : ConversationResult) :
  generateConversation initializeCharacters generateVoice request = Ok r ->
  map at_characterId (audioTracks r) =
    map char_id (filter (fun c => existsb (fun l => String.eqb (characterId l) (char_id c))
                                    (dialogue (config request)))
                        (characters (config request))) /\
  (NoDup (map char_id (characters (config request))) ->
   length (flat_map at_segments (audioTracks r)) = length (dialogue (config request))).
Proof.
  intros H. destruct (generateConversation_parts _ _ _ _ H) as [V Ht].
  set (D := dialogue (config request)) in *.
  set (g := globalSettings (config request)).
  set (chars := characters (config request)) in *.
  pose proof (processDialogueTiming_characterIds D g) as Hids.
  destruct (generateCharacterAudioTracks_shape generateVoice (processDialogueTiming D g) chars
              (audioTracks r) Ht) as [S1 S2].
  split.
  - rewrite S1. f_equal. apply filter_ext. intros c.
    rewrite !existsb_characterId, Hids. reflexivity.
  - intros Hn. rewrite S2.
    rewrite count_lines_by_character; [| exact Hn |].
    + rewrite <- (length_map characterId), Hids, length_map. reflexivity.
    + intros l' Hl'. apply (in_map characterId) in Hl'. rewrite Hids in Hl'.
      apply in_map_iff in Hl'. destruct Hl' as [l [<- Hl]].
      exact (validate_ok_characters (config request) V l Hl).
Qed.

Lemma generateConversation_tracks_witness :
  exists r,
    generateConversation Scenarios.init_ok Scenarios.silent_voice Scenarios.back_to_back_request = Ok r /\
    NoDup (map char_id (characters (config Scenarios.back_to_back_request))) /\
    length (flat_map at_segments (audioTracks r)) = 2%nat.
Proof.
  eexists. split; [vm_compute; reflexivity |].
  assert (Hn : NoDup (map char_id (characters (config Scenarios.back_to_back_request)))).
  { vm_compute. constructor; [simpl; intuition discriminate | constructor; [intros [] | constructor]]. }
  split; [exact Hn |].
  exact (proj2 (generateConversation_tracks Scenarios.init_ok Scenarios.silent_voice
                  Scenarios.back_to_back_request _ eq_refl) Hn).
Defined.

End ManagerExtraFacts.

Module CurveFacts.
Import EmotionEngine EmotionCurveFns.
Open Scope Q_scope.

Lemma linear_range (p : Q) : 0 <= EmotionCurves.linear p <= 1.
Proof.
  unfold EmotionCurves.linear.
  split; [apply Q.le_max_l |].
  apply Q.max_lub; [lra | apply Q.le_min_l].
Qed.

Lemma linear_mono (p q : Q) : p <= q -> EmotionCurves.linear p <= EmotionCurves.linear q.
Proof.
  intros H. unfold EmotionCurves.linear.
  apply Q.max_le_compat_l, Q.min_le_compat_l, H.
Qed.

Lemma easeIn_range (p : Q) : 0 <= p <= 1 -> 0 <= easeIn p <= 1.
Proof. unfold easeIn. intros H. nra. Qed.

Lemma easeOut_range (p : Q) : 0 <= p <= 1 -> 0 <= easeOut p <= 1.
Proof. unfold easeOut. intros H. nra. Qed.

Lemma easeInOut_range (p : Q) : 0 <= p <= 1 -> 0 <= easeInOut p <= 1.
Proof.
  unfold easeInOut. intros H. destruct (Qlt_le_dec p (1 # 2)); [nra |].
  assert (0 <= (-2 * p + 2) * (-2 * p + 2) <= 1) by nra.
  split.
  - apply (Qplus_le_l _ _ (((-2 * p + 2) * (-2 * p + 2)) / 2)). ring_simplify.
    apply Qle_shift_div_r; lra.
  - assert (0 <= ((-2 * p + 2) * (-2 * p + 2)) / 2) by (apply Qle_shift_div_l; lra). lra.
Qed.

Lemma easeInOut_zero (p : Q) : p == 0 -> easeInOut p == 0.
Proof.
  intros H. unfold easeInOut. destruct (Qlt_le_dec p (1 # 2)); [| lra].
  rewrite H. ring.
Qed.

Lemma easeInOut_one (p : Q) : p == 1 -> easeInOut p == 1.
Proof.
  intros H. unfold easeInOut. destruct (Qlt_le_dec p (1 # 2)); [lra |].
  rewrite H. field.
Qed.

(** Control points the [bezier] curve can use: the default ones, or given
    ones with at least two points whose y-coordinates lie in [0, 1]. *)
Lemma bezier_range (p : Q) (c1 c2 : Q * Q) (rest : list (Q * Q)) :
  0 <= snd c1 <= 1 -> 0 <= snd c2 <= 1 -> 0 <= p <= 1 ->
  exists v, EmotionCurves.bezier p (c1 :: c2 :: rest) = Some v /\ 0 <= v <= 1.
Proof.
  intros H1 H2 Hp. eexists. split; [reflexivity |].
  set (y1 := snd c1) in *. set (y2 := snd c2) in *.
  set (m := 1 - p).
  assert (Hm : 0 <= m <= 1) by (unfold m; lra).
  assert (A : 0 <= m * m * p) by (apply Qmult_le_0_compat; [apply Qmult_le_0_compat |]; lra).
  assert (B : 0 <= m * p * p) by (apply Qmult_le_0_compat; [apply Qmult_le_0_compat |]; lra).
  assert (C : 0 <= p * p * p) by (apply Qmult_le_0_compat; [apply Qmult_le_0_compat |]; lra).
  assert (M3 : 0 <= m * m * m) by (apply Qmult_le_0_compat; [apply Qmult_le_0_compat |]; lra).
  assert (A1 : 0 <= (m * m * p) * y1) by (apply Qmult_le_0_compat; lra).
  assert (A2 : 0 <= (m * m * p) * (1 - y1)) by (apply Qmult_le_0_compat; lra).
  assert (B1 : 0 <= (m * p * p) * y2) by (apply Qmult_le_0_compat; lra).
  assert (B2 : 0 <= (m * p * p) * (1 - y2)) by (apply Qmult_le_0_compat; lra).
  assert (Sum : m * m * m + 3 * (m * m * p) + 3 * (m * p * p) + p * p * p == 1)
    by (unfold m; ring).
  cbv zeta. fold m. split; nra.
Qed.


Lemma curve_range (c : TransitionCurve) (controlPoints : option (list (Q * Q))) (p : Q) :
  match controlPoints with
  | None => True
  | Some cps => exists c1 c2 rest, cps = c1 :: c2 :: rest /\
                  0 <= snd c1 <= 1 /\ 0 <= snd c2 <= 1
  end ->
  0 <= p <= 1 ->
  exists v, getCurveFunction c controlPoints p = Some v /\ 0 <= v <= 1.
Proof.
  intros Hc Hp. destruct c; simpl.
  - eexists; split; [reflexivity | apply linear_range].
  - eexists; split; [reflexivity | apply easeIn_range, Hp].
  - eexists; split; [reflexivity | apply easeOut_range, Hp].
  - eexists; split; [reflexivity | apply easeInOut_range, Hp].
  - destruct controlPoints as [cps |].
    + destruct Hc as [c1 [c2 [rest [-> [H1 H2]]]]]. apply bezier_range; assumption.
    + apply bezier_range; simpl; [lra | lra | exact Hp].
Qed.

Lemma curve_ends (c : TransitionCurve) (controlPoints : option (list (Q * Q))) :
  match controlPoints with
  | None => True
  | Some cps => exists c1 c2 rest, cps = c1 :: c2 :: rest
  end ->
  (exists v, getCurveFunction c controlPoints 0 = Some v /\ v == 0) /\
  (exists v, getCurveFunction c controlPoints 1 = Some v /\ v == 1).
Proof.
  intros Hc.
  assert (Hb : exists c1 c2 rest, match controlPoints with
                                  | Some cps => cps | None => default_controlPoints end
                                  = c1 :: c2 :: rest).
  { destruct controlPoints as [cps |]; [exact Hc | do 3 eexists; reflexivity]. }
  destruct c; simpl; try (split; eexists; split; reflexivity).
  destruct Hb as [c1 [c2 [rest ->]]]. simpl.
  split; eexists; (split; [reflexivity | ring]).
Qed.

(** Every curve of [getCurveFunction] ([linear], [ease-in], [ease-out],
    [ease-in-out], and [bezier] with the default control points or with
    at least two given points whose y-coordinates lie in [0, 1]) maps a
    progress in [0, 1] to a value in [0, 1], maps 0 to 0 and 1 to 1. A
    [bezier] curve given fewer than two control points throws instead. *)
Theorem getCurveFunction_unit_range (c : TransitionCurve)
  (controlPoints : option (list (Q * Q))) :
  match controlPoints with
  | None => True
  | Some cps => exists c1 c2 rest, cps = c1 :: c2 :: rest /\
                  0 <= snd c1 <= 1 /\ 0 <= snd c2 <= 1
  end ->
  (forall p, 0 <= p <= 1 ->
     exists v, getCurveFunction c controlPoints p = Some v /\ 0 <= v <= 1) /\
  (exists v, getCurveFunction c controlPoints 0 = Some v /\ v == 0) /\
  (exists v, getCurveFunction c controlPoints 1 = Some v /\ v == 1).
Proof.
  intros Hc. split; [intros p Hp; apply curve_range; assumption |].
  apply curve_ends. destruct controlPoints as [cps |]; [| exact I].
  destruct Hc as [c1 [c2 [rest [E _]]]]. exists c1, c2, rest. exact E.
Qed.

Lemma getCurveFunction_unit_range_witness :
  exists v, getCurveFunction bezier None (1 # 2) = Some v /\ 0 <= v <= 1.
Proof.
  exact (proj1 (getCurveFunction_unit_range bezier None I) (1 # 2) ltac:(lra)).
Defined.

(** [interpolateEmotionIntensity] with a progress in [0, 1] (and usable
    control points) returns a value between [fromIntensity] and
    [toIntensity]: exactly [fromIntensity] at progress 0 and exactly
    [toIntensity] at progress 1. *)
Theorem interpolateEmotionIntensity_between (fromIntensity toIntensity progress : Q)
  (c : TransitionCurve) (controlPoints : option (list (Q * Q))) :
  match controlPoints with
  | None => True
  | Some cps => exists c1 c2 rest, cps = c1 :: c2 :: rest /\
                  0 <= snd c1 <= 1 /\ 0 <= snd c2 <= 1
  end ->
  0 <= progress <= 1 ->
  exists v, interpolateEmotionIntensity fromIntensity toIntensity progress c controlPoints
              = Some v /\
    (fromIntensity <= toIntensity -> fromIntensity <= v <= toIntensity) /\
    (toIntensity <= fromIntensity -> toIntensity <= v <= fromIntensity) /\
    (progress = 0 -> v == fromIntensity) /\
    (progress = 1 -> v == toIntensity).
Proof.
  intros Hc Hp. unfold interpolateEmotionIntensity.
  destruct (curve_range c controlPoints progress Hc Hp) as [e [E He]].
  assert (Hc' : match controlPoints with
                | None => True
                | Some cps => exists c1 c2 rest, cps = c1 :: c2 :: rest
                end).
  { destruct controlPoints as [cps |]; [| exact I].
    destruct Hc as [c1 [c2 [rest [Ecp _]]]]. exists c1, c2, rest. exact Ecp. }
  destruct (curve_ends c controlPoints Hc') as [[e0 [E0 He0]] [e1 [E1 He1]]].
  rewrite E. eexists. split; [reflexivity |].
  split; [intros H; nra | split; [intros H; nra | split]].
  - intros ->. rewrite E in E0. injection E0 as <-. rewrite He0. ring.
  - intros ->. rewrite E in E1. injection E1 as <-. rewrite He1. ring.
Qed.

Lemma interpolateEmotionIntensity_between_witness :
  exists v, interpolateEmotionIntensity (6 # 10) (9 # 10) (1 # 2) ease_in_out None = Some v /\
    ((6 # 10) <= (9 # 10) -> (6 # 10) <= v <= (9 # 10)).
Proof.
  destruct (interpolateEmotionIntensity_between (6 # 10) (9 # 10) (1 # 2) ease_in_out None I
              ltac:(lra)) as [v [E [H _]]].
  exists v. split; [exact E | exact H].
Defined.

(** On progress in [0, 1], the [linear], [ease-in], [ease-out] and
    [ease-in-out] curves are non-decreasing. *)
Theorem getCurveFunction_monotone (c : TransitionCurve)
  (controlPoints : option (list (Q * Q))) (p q : Q) :
  c <> bezier -> 0 <= p -> p <= q -> q <= 1 ->
  exists vp vq, getCurveFunction c controlPoints p = Some vp /\
                getCurveFunction c controlPoints q = Some vq /\ vp <= vq.
Proof.
  intros Hc H0 Hpq H1. destruct c; try (exfalso; apply Hc; reflexivity); simpl; do 2 eexists; (split; [reflexivity | split; [reflexivity |]]).
  - apply linear_mono, Hpq.
  - unfold easeIn. nra.
  - unfold easeOut. nra.
  - unfold easeInOut.
    destruct (Qlt_le_dec p (1 # 2)), (Qlt_le_dec q (1 # 2)).
    + nra.
    + assert (0 <= (-2 * q + 2) * (-2 * q + 2) <= 1) by nra.
      assert (((-2 * q + 2) * (-2 * q + 2)) / 2 <= 1 # 2) by (apply Qle_shift_div_r; lra).
      nra.
    + lra.
    + assert (Hs : (-2 * q + 2) * (-2 * q + 2) <= (-2 * p + 2) * (-2 * p + 2)) by nra.
      assert (((-2 * q + 2) * (-2 * q + 2)) / 2 <= ((-2 * p + 2) * (-2 * p + 2)) / 2).
      { apply Qmult_le_compat_r; [exact Hs | vm_compute; discriminate]. }
      lra.
Qed.

Lemma getCurveFunction_monotone_witness :
  exists vp vq, getCurveFunction ease_in_out None (1 # 4) = Some vp /\
                getCurveFunction ease_in_out None (3 # 4) = Some vq /\ vp <= vq.
Proof.
  apply (getCurveFunction_monotone ease_in_out None (1 # 4) (3 # 4)); [discriminate | lra | lra | lra].
Defined.

(** [easeInOut] is point-symmetric about (1/2, 1/2): for every progress,
    [easeInOut(1 - p) = 1 - easeInOut(p)]. *)
Theorem easeInOut_symmetric (progress : Q) :
  easeInOut (1 - progress) == 1 - easeInOut progress.
Proof.
  unfold easeInOut.
  destruct (Qlt_le_dec (1 - progress) (1 # 2)), (Qlt_le_dec progress (1 # 2)).
  - lra.
  - field.
  - field.
  - assert (E : progress == 1 # 2) by lra. rewrite E. field.
Qed.

(** [naturalEmotionCurve] stays in [0, 1] on progress in [0, 1]; it starts
    at 0 for every emotion but ['surprised'], which starts at 1, and it
    ends at 1 for every emotion but ['surprised'], which ends at 0.73. *)
Theorem naturalEmotionCurve_shape (emotionType : string) :
  (forall p, 0 <= p <= 1 -> 0 <= naturalEmotionCurve p emotionType <= 1) /\
  naturalEmotionCurve 0 emotionType ==
    (if String.eqb emotionType "surprised" then 1 else 0) /\
  naturalEmotionCurve 1 emotionType ==
    (if String.eqb emotionType "surprised" then 73 # 100 else 1).
Proof.
  split.
  - intros p Hp. unfold naturalEmotionCurve.
    destruct (_ || _).
    { destruct (Qlt_le_dec p (3 # 10)); [| lra].
      apply easeIn_range. split.
      - apply Qle_shift_div_l; lra.
      - apply Qle_shift_div_r; lra. }
    destruct (_ || _); [apply easeInOut_range, Hp |].
    destruct (_ || _).
    { destruct (Qlt_le_dec p (2 # 10)).
      - assert (0 <= easeIn (p / (2 # 10)) <= 1).
        { apply easeIn_range. split; [apply Qle_shift_div_l | apply Qle_shift_div_r]; lra. }
        lra.
      - lra. }
    destruct (String.eqb _ _); [destruct (Qlt_le_dec p (1 # 10)); lra |].
    apply easeInOut_range, Hp.
  - unfold naturalEmotionCurve.
    destruct (String.eqb_spec emotionType "happy") as [-> | H1];
      [split; vm_compute; reflexivity |].
    destruct (String.eqb_spec emotionType "excited") as [-> | H2];
      [split; vm_compute; reflexivity |].
    destruct (String.eqb_spec emotionType "sad") as [-> | H3];
      [split; vm_compute; reflexivity |].
    destruct (String.eqb_spec emotionType "calm") as [-> | H4];
      [split; vm_compute; reflexivity |].
    destruct (String.eqb_spec emotionType "angry") as [-> | H5];
      [split; vm_compute; reflexivity |].
    destruct (String.eqb_spec emotionType "fearful") as [-> | H6];
      [split; vm_compute; reflexivity |].
    destruct (String.eqb_spec emotionType "surprised") as [-> | H7];
      [split; vm_compute; reflexivity |].
    split; vm_compute; reflexivity.
Qed.

(** [bounce] maps every progress in [0, 1] to a value in [0, 1]. *)
Theorem bounce_unit_range (progress : Q) :
  0 <= progress <= 1 -> 0 <= bounce progress <= 1.
Proof.
  intros Hp. unfold bounce. cbv zeta.
  change (1 / (11 # 4)) with (4 # 11). change (2 / (11 # 4)) with (8 # 11).
  change ((5 # 2) / (11 # 4)) with (20 # 22). change ((3 # 2) / (11 # 4)) with (12 # 22).
  change ((9 # 4) / (11 # 4)) with (36 # 44). change ((21 # 8) / (11 # 4)) with (84 # 88).
  destruct (Qlt_le_dec progress (4 # 11)); [nra |].
  destruct (Qlt_le_dec progress (8 # 11)); [nra |].
  destruct (Qlt_le_dec progress (20 # 22)); nra.
Qed.

Lemma bounce_unit_range_witness :
  bounce 0 == 0 /\ bounce 1 == 1 /\ 0 <= bounce (1 # 2) <= 1.
Proof.
  split; [vm_compute; reflexivity | split; [vm_compute; reflexivity |]].
  apply bounce_unit_range. lra.
Defined.

Lemma bracket_none (cur : Q) (l : list (Q * Q)) :
  Forall (fun e => fst e < cur) l \/ Forall (fun e => cur < fst e) l ->
  bracket cur l = None.
Proof.
  induction l as [| x l IH]; intros H; [reflexivity |].
  destruct l as [| y rest]; [reflexivity |].
  cbn [bracket].
  replace (Qle_bool (fst x) cur && Qle_bool cur (fst y)) with false.
  - apply IH. destruct H as [H | H]; inversion H; [left | right]; assumption.
  - symmetry. apply andb_false_iff.
    destruct H as [H | H]; inversion H as [| ? ? Hx H']; inversion H' as [| ? ? Hy _]; subst.
    + right. apply not_true_iff_false. rewrite Qle_bool_iff. lra.
    + left. apply not_true_iff_false. rewrite Qle_bool_iff. lra.
Qed.



Lemma bracket_first (x y : Q * Q) (rest : list (Q * Q)) :
  fst x < fst y -> bracket (fst x) (x :: y :: rest) = Some (x, y).
Proof.
  intros H. cbn [bracket].
  replace (Qle_bool (fst x) (fst x) && Qle_bool (fst x) (fst y)) with true; [reflexivity |].
  symmetry. apply andb_true_iff. rewrite !Qle_bool_iff. lra.
Qed.

Lemma bracket_at (l : list (Q * Q)) : forall k,
  StronglySorted (fun a b => fst a < fst b) l -> (S k < length l)%nat ->
  bracket (fst (nth (S k) l (0, 0))) l = Some (nth k l (0, 0), nth (S k) l (0, 0)).
Proof.
  induction l as [| x l IH]; intros k Hs Hk; [simpl in Hk; lia |].
  destruct l as [| y rest]; [simpl in Hk; lia |].
  inversion Hs as [| ? ? Hs' Hx]; subst.
  inversion Hs' as [| ? ? Hs'' Hy]; subst.
  destruct k as [| k].
  - simpl. cbn [bracket].
    replace (Qle_bool (fst x) (fst y) && Qle_bool (fst y) (fst y)) with true; [reflexivity |].
    symmetry. apply andb_true_iff. rewrite !Qle_bool_iff.
    inversion Hx; subst. lra.
  - change (nth (S (S k)) (x :: y :: rest) (0, 0)) with (nth (S k) (y :: rest) (0, 0)).
    change (nth (S k) (x :: y :: rest) (0, 0)) with (nth k (y :: rest) (0, 0)).
    cbn [bracket].
    assert (Hin : In (nth k rest (0, 0)) rest) by (apply nth_In; simpl in Hk; lia).
    rewrite Forall_forall in Hy.
    replace (Qle_bool (fst x) (fst (nth (S k) (y :: rest) (0, 0))) &&
             Qle_bool (fst (nth (S k) (y :: rest) (0, 0))) (fst y)) with false.
    + apply IH; [exact Hs' | simpl in Hk |- *; lia].
    + symmetry. apply andb_false_iff. right. apply not_true_iff_false.
      rewrite Qle_bool_iff. specialize (Hy _ Hin). simpl. lra.
Qed.

Lemma sorted_adjacent (l : list (Q * Q)) :
  StronglySorted (fun a b => fst a < fst b) l -> forall k, (S k < length l)%nat ->
  fst (nth k l (0, 0)) < fst (nth (S k) l (0, 0)).
Proof.
  induction 1 as [| x l Hl IH Hx]; intros k Hk; [simpl in Hk; lia |].
  destruct k as [| k].
  - destruct l as [| y l]; [simpl in Hk; lia |].
    simpl. inversion Hx; subst; assumption.
  - simpl. apply IH. simpl in Hk. lia.
Qed.

Lemma interpolate_full (b a : Q * Q) (cur : Q) :
  fst b < fst a -> cur == fst a ->
  exists v, interpolateEmotionIntensity (snd b) (snd a)
              ((cur - fst b) / (fst a - fst b)) ease_in_out None = Some v /\ v == snd a.
Proof.
  intros H Hc. eexists. split; [reflexivity |].
  rewrite (easeInOut_one ((cur - fst b) / (fst a - fst b))); [ring |].
  rewrite Hc. field. intros E. lra.
Qed.

(** At the time of any keyframe (keyframes sorted by strictly increasing
    time), [smoothMultiTransition] returns exactly that keyframe's
    intensity. *)
Theorem smoothMultiTransition_at_keyframe (emotions : list (Q * Q)) (k : nat)
  (totalDuration : Q) :
  Sorted (fun a b => fst a < fst b) emotions -> (k < length emotions)%nat ->
  exists v, smoothMultiTransition emotions (fst (nth k emotions (0, 0))) totalDuration = Some v /\
            v == snd (nth k emotions (0, 0)).
Proof.
  intros Hs Hk.
  apply Sorted_StronglySorted in Hs; [| intros a b c Hab Hbc; eapply Qlt_trans; eassumption].
  destruct emotions as [| e0 [| e1 rest]]; [simpl in Hk; lia | |].
  - destruct k as [| k]; [| simpl in Hk; lia]. eexists. split; reflexivity.
  - assert (H01 : fst e0 < fst e1).
    { inversion Hs as [| ? ? _ Hx]; subst. inversion Hx; assumption. }
    destruct k as [| k].
    + simpl nth. unfold smoothMultiTransition. rewrite bracket_first by exact H01.
      destruct (Qlt_le_dec 0 (fst e1 - fst e0)) as [_ | Hn]; [| lra].
      eexists. split; [reflexivity |].
      rewrite (easeInOut_zero ((fst e0 - fst e0) / (fst e1 - fst e0))); [ring |].
      field. intros E. lra.
    + unfold smoothMultiTransition. rewrite bracket_at by assumption.
      assert (Hba : fst (nth k (e0 :: e1 :: rest) (0, 0)) <
                    fst (nth (S k) (e0 :: e1 :: rest) (0, 0))).
      { apply sorted_adjacent; assumption. }
      destruct (Qlt_le_dec 0 _) as [_ | Hn]; [| lra].
      apply interpolate_full; [exact Hba | reflexivity].
Qed.

Lemma smoothMultiTransition_at_keyframe_witness :
  exists v, smoothMultiTransition [(0, 0); (1000, 1); (3000, 1 # 2)] 1000 0 = Some v /\
            v == 1.
Proof.
  apply (smoothMultiTransition_at_keyframe [(0, 0); (1000, 1); (3000, 1 # 2)] 1 0).
  - repeat constructor; simpl; lra.
  - simpl. lia.
Defined.

End CurveFacts.

(** * Further facts on the emotion transition engine *)

Module EngineExtraFacts.
Import JsString EmotionEngine.
Open Scope Q_scope.

Lemma split_ws_chars_nonempty (l : list ascii) :
  (1 <= length (fst (split_ws_chars l)))%nat.
Proof.
  induction l as [|c l IH]; simpl; [lia|].
  destruct (split_ws_chars l) as [chunks ws]; simpl in *.
  destruct (is_ws c), ws; simpl; try lia; destruct chunks; simpl in *; lia.
Qed.

(** [estimateAudioDuration] is never below one word at 180 words per
    minute, 1000/3 ms: [text.split(/\s+/)] has at least one element, also
    for the empty text or a text of whitespace only. *)
Theorem estimateAudioDuration_lower_bound (text : string) :
  1000 # 3 <= estimateAudioDuration text.
Proof.
  unfold estimateAudioDuration, split_ws_length, split_ws.
  rewrite length_map.
  pose proof (split_ws_chars_nonempty (list_ascii_of_string text)) as H.
  remember (length (fst (split_ws_chars (list_ascii_of_string text)))) as n.
  assert (Hn : inject_Z 1 <= inject_Z (Z.of_nat n)).
  { rewrite <- Zle_Qle. lia. }
  change (inject_Z 1) with 1 in Hn.
  assert (E : forall x, x / 180 * 60 * 1000 == x * (1000 # 3)).
  { intros x. field. }
  rewrite E. lra.
Qed.

End EngineExtraFacts.

(** * Blending two emotion profiles *)

Module BlendFacts.
Import EmotionBlending.
Open Scope Q_scope.

#[local] Arguments pv_type {EmotionVariation}.
#[local] Arguments pv_intensity {EmotionVariation}.
#[local] Arguments pv_variations {EmotionVariation}.

(** For a blend ratio in [0, 1], the blended intensity lies between the
    two intensities (it is the primary's at ratio 0 and the secondary's
    at ratio 1); the blended type is the primary's when its intensity is
    at least the secondary's and the secondary's otherwise, whatever the
    ratio; the variations are the primary's followed by the secondary's. *)
Theorem blendEmotions_spec {V : Type} (p s : Profile V) (r : Q) :
  0 <= r <= 1 ->
  let b := blendEmotions V (mkBlend p s r) in
  (pv_intensity p <= pv_intensity s ->
     pv_intensity p <= pv_intensity b <= pv_intensity s) /\
  (pv_intensity s <= pv_intensity p ->
     pv_intensity s <= pv_intensity b <= pv_intensity p) /\
  (r == 0 -> pv_intensity b == pv_intensity p) /\
  (r == 1 -> pv_intensity b == pv_intensity s) /\
  (pv_intensity s <= pv_intensity p -> pv_type b = pv_type p) /\
  (pv_intensity p < pv_intensity s -> pv_type b = pv_type s) /\
  pv_variations b = (pv_variations p ++ pv_variations s)%list.
Proof.
  intros [H0 H1] b. subst b. unfold blendEmotions; simpl.
  set (a := pv_intensity p). set (c := pv_intensity s).
  repeat split; intros.
  - assert (0 <= r * (c - a)) by (apply Qmult_le_0_compat; lra). nra.
  - assert (0 <= (1 - r) * (c - a)) by (apply Qmult_le_0_compat; lra). nra.
  - assert (0 <= r * (a - c)) by (apply Qmult_le_0_compat; lra). nra.
  - assert (0 <= (1 - r) * (a - c)) by (apply Qmult_le_0_compat; lra). nra.
  - rewrite H. ring.
  - rewrite H. ring.
  - replace (Qle_bool c a) with true; [reflexivity|].
    symmetry; apply Qle_bool_iff; assumption.
  - replace (Qle_bool c a) with false; [reflexivity|].
    symmetry; apply not_true_iff_false; rewrite Qle_bool_iff; lra.
Qed.

Definition happy_u : Profile unit := mkProfileV "happy" (4#5) [tt].
Definition excited_u : Profile unit := mkProfileV "excited" (3#5) [tt; tt].

Lemma blendEmotions_spec_witness :
  (0 <= 3#10 <= 1) /\
  pv_type (blendEmotions unit (mkBlend happy_u excited_u (3#10))) = "happy".
Proof.
  split; [split; vm_compute; discriminate|].
  apply (blendEmotions_spec happy_u excited_u (3#10)).
  - split; vm_compute; discriminate.
  - vm_compute; discriminate.
Defined.

End BlendFacts.

(** * Keyword matching in voice prompts *)

Module VoicePromptFacts.
Import JsString PromptParser VoicePrompt.

Lemma startsWith_includes (s p : string) :
  startsWith s p = true -> includes s p = true.
Proof.
  intros H.
  assert (E : includes s p = startsWith s p ||
                match s with EmptyString => false | String _ s' => includes s' p end)
    by (destruct s; reflexivity).
  rewrite E, H. reflexivity.
Qed.

Lemma includes_tail (s p : string) (c : ascii) :
  includes s (String c p) = true -> includes s p = true.
Proof.
  induction s as [|d s IH]; simpl; [discriminate|].
  intros H. apply orb_true_iff in H as [H|H].
  - apply andb_true_iff in H as [_ H].
    apply orb_true_iff; right. apply startsWith_includes; exact H.
  - apply orb_true_iff; right. apply IH; exact H.
Qed.

(** Keywords are found as substrings of the lower-cased prompt, also
    inside other words: a prompt containing "old" (as in "bold" or
    "golden") is senior whatever other age word it has; "low" (as in
    "yellow" or "slow") makes the timbre deep; "slow" makes both the pace
    slow and the timbre deep; and "us" (as in "mysterious" or "music")
    gives the accent "american" unless an Australian or British keyword
    occurs. *)
Theorem parseVoicePrompt_substring_keywords (prompt : string) :
  let lp := toLowerCase prompt in
  let v := parseVoicePrompt prompt in
  (includes lp "old" = true -> vc_age v = senior) /\
  (includes lp "low" = true -> vc_timbre v = deep) /\
  (includes lp "slow" = true -> vc_timbre v = deep /\ vc_pace v = slow) /\
  (includes lp "us" = true ->
   includes_any lp ["australian"; "aussie"; "british"; "uk"; "english"; "london"] = false ->
   vc_accent v = "american").
Proof.
  intros lp v. subst v. unfold parseVoicePrompt; cbv zeta; simpl.
  fold lp.
  assert (Tlow : includes lp "low" = true -> parseTimbre lp = deep).
  { intros H. unfold parseTimbre, includes_any; cbn [existsb].
    rewrite H, orb_true_r; reflexivity. }
  refine (conj _ (conj _ (conj _ _))).
  - intros H. unfold parseAge, includes_any; cbv zeta; cbn [existsb].
    rewrite H; simpl. reflexivity.
  - exact Tlow.
  - intros H. split.
    + apply Tlow. apply (includes_tail _ _ "s"%char); exact H.
    + unfold parsePace, includes_any; cbn [existsb].
      rewrite H; reflexivity.
  - intros H Hn.
    rewrite !orb_false_iff in Hn.
    destruct Hn as (Ha & Hb & Hc & Hd & He & Hf & _).
    rewrite Ha, Hb, Hc, Hd, He, Hf, H, orb_true_r; reflexivity.
Qed.

Lemma parseVoicePrompt_substring_keywords_witness :
  vc_age (parseVoicePrompt "A bold young mysterious voice") = senior /\
  vc_accent (parseVoicePrompt "A bold young mysterious voice") = "american".
Proof.
  destruct (parseVoicePrompt_substring_keywords "A bold young mysterious voice")
    as (Hold & _ & _ & Hus).
  split.
  - apply Hold. vm_compute. reflexivity.
  - apply Hus; vm_compute; reflexivity.
Defined.

End VoicePromptFacts.

(** * The VTT loop *)

Module SubtitleVTTFacts.
Import JsString Subtitle SubtitleVTT.

Lemma vtt_step_skipped (st : VttState) (raw : chars) :
  skipped_line (trim raw) = true -> vtt_step st raw = st.
Proof. intros H. unfold vtt_step; cbv zeta. rewrite H. reflexivity. Qed.

(** The WEBVTT header and blank lines are no-ops of the VTT loop:
    dropping them from the line list leaves the loop's state unchanged.
    In particular a blank line does not close a cue: text lines after a
    blank line are added to the cue before it. *)
Theorem vtt_lines_skip_blank (ls : list chars) (st : VttState) :
  vtt_lines (filter (fun raw => negb (skipped_line (trim raw))) ls) st
  = vtt_lines ls st.
Proof.
  unfold vtt_lines. revert st.
  induction ls as [|raw ls IH]; intros st; simpl; [reflexivity|].
  destruct (skipped_line (trim raw)) eqn:E; simpl.
  - rewrite (vtt_step_skipped st raw E). apply IH.
  - apply IH.
Qed.

Lemma cue_entry_index (idx : Z) (a b : Q) (t : list chars) :
  index (cue_entry idx a b t) = idx.
Proof.
  unfold cue_entry. destruct (parseTextAnnotations (join nl t)) as [[c s] e].
  reflexivity.
Qed.

Definition vtt_inv (st : VttState) : Prop :=
  vs_index st = Z.of_nat (length (vs_entries st)) /\
  map index (vs_entries st) = map Z.of_nat (seq 0 (length (vs_entries st))).

Lemma vtt_inv_push (st : VttState) (e : SubtitleEntry) :
  vtt_inv st -> index e = vs_index st ->
  (vs_index st + 1)%Z = Z.of_nat (length (vs_entries st ++ [e])) /\
  map index (vs_entries st ++ [e])
  = map Z.of_nat (seq 0 (length (vs_entries st ++ [e]))).
Proof.
  intros [Hi Hm] He. rewrite length_app; simpl.
  split; [lia|].
  rewrite Nat.add_1_r, seq_S, !map_app, Hm; cbn [map]. rewrite He, Hi. reflexivity.
Qed.

Lemma vtt_step_inv (st : VttState) (raw : chars) :
  vtt_inv st -> vtt_inv (vtt_step st raw).
Proof.
  intros Hinv. unfold vtt_step; cbv zeta.
  destruct (skipped_line (trim raw)); [exact Hinv|].
  destruct (vtt_match_time (trim raw)) as [[a b]|].
  - destruct (vs_inCue st && negb (Nat.eqb (length (vs_cueText st)) 0)).
    + apply vtt_inv_push; [exact Hinv|]. apply cue_entry_index.
    + exact Hinv.
  - destruct (vs_inCue st); [|exact Hinv].
    destruct (trim raw); exact Hinv.
Qed.

Lemma vtt_lines_inv (ls : list chars) (st : VttState) :
  vtt_inv st -> vtt_inv (vtt_lines ls st).
Proof.
  unfold vtt_lines. revert st.
  induction ls as [|raw ls IH]; intros st H; simpl; [exact H|].
  apply IH, vtt_step_inv, H.
Qed.

(** The entries of [parseVTT] are numbered 0, 1, 2, ... in order, without
    gap: a cue without text lines is dropped without using up an index. *)
Theorem parseVTT_indices (content : string) :
  map index (entries (parseVTT content))
  = map Z.of_nat (seq 0 (length (entries (parseVTT content)))).
Proof.
  unfold parseVTT; simpl. unfold vtt_finish.
  pose proof (vtt_lines_inv (split_char nl (list_ascii_of_string content)) vtt_init)
    as H.
  set (st := vtt_lines (split_char nl (list_ascii_of_string content)) vtt_init) in *.
  assert (H0 : vtt_inv vtt_init) by (split; reflexivity).
  specialize (H H0).
  destruct (vs_inCue st && negb (Nat.eqb (length (vs_cueText st)) 0)).
  - apply (vtt_inv_push st). exact H. apply cue_entry_index.
  - apply H.
Qed.

End SubtitleVTTFacts.
